(** * The ninja-team build orchestrator: scheduling core

    A shallow embedding of [NinjaTeamOrchestrator]
    (.history/scripts/ninja-team_20250308192707.py): the agent registry,
    the build graph and its topological sort, the priority plan, the
    ready-task scan, agent reservation, failure resolution, the heartbeat
    monitor, graph ingestion and host discovery.

    Conventions of the embedding.
    - Python [int] is [Z]; [//] is [Z.div] (both round towards minus
      infinity).
    - [str] is [string]; the status fields stay strings, as in the source,
      which never closes them into an enumeration (the deployment step even
      writes a fifth agent status, "active").
    - [time.time()] stamps are numbers handed in by the caller; they are
      modelled as [Z] ticks, so time arithmetic is exact.
    - A [dict] whose iteration order is observable (the agent registry) is an
      association list in insertion order; a [dict] that is only looked up
      or counted over ([build_graph], [target_to_task]) is a [gmap]; a [set]
      is a [gset].
    - [list.sort(key=..., reverse=True)] and [sorted(..., reverse=True)] are
      stable: equal keys keep their original relative order.
    - The lock ([threading.RLock]) makes each modelled method one atomic
      step on the orchestrator state; each is a function from state to
      result and state.
    - What the process cannot decide by itself (the ninja tool, the file
      system, the network, [json.loads], [int]) is an explicit argument.
    - An exception that a method lets escape is an outcome of its own: a
      [KeyError] or a [RecursionError] of the topological sort, an [OSError]
      of the file-system calls that [parse_build_tasks] makes before its
      [try]. The interpreter's recursion limit is an explicit argument: the
      number of nested calls that it leaves room for, together with the
      number that one [logger.warning] takes. It is checked where the depth
      of the calls grows with the input, in the recursion of [visit] and
      for the warning logged at the depth of a cycle; calls of bounded depth
      made at the depth of a modelled method itself (its own log calls, a
      generator, a sort key) are taken to fit. *)

From Stdlib Require Import ZArith Ascii String.
From stdpp Require Import base gmap strings pretty list sorting.

(* [set_solver] clears hypotheses by name as it goes. *)
Set Warnings "-clear-no-such-hyp".

Open Scope string_scope.
Open Scope list_scope.
Open Scope Z_scope.

(** ** Data model *)

(** [class BuildAgent]. [load] is never written after construction. *)
Record BuildAgent := mkAgent {
  agent_name : string;
  agent_host : string;
  agent_port : Z;
  agent_cores : Z;
  agent_status : string;
  agent_current_task : option string;
  agent_load : Z;
  agent_available_memory : Z;
  agent_last_seen : Z
}.

(** [class BuildTask]. [assigned_agent] refers to an agent object; the
    registry keys agents by name, so the reference is kept as that name. *)
Record BuildTask := mkTask {
  task_target : string;
  task_directory : string;
  task_priority : Z;
  task_dependencies : list string;
  task_assigned_agent : option string;
  task_status : string;
  task_start_time : option Z;
  task_end_time : option Z
}.

(** The mutable fields of [NinjaTeamOrchestrator] that the scheduling core
    reads or writes; [heartbeat_interval] is [config["heartbeat_interval"]]. *)
Record Orchestrator := mkOrch {
  agents : list (string * BuildAgent);
  build_tasks : list BuildTask;
  completed_tasks : list BuildTask;
  build_graph : gmap string (list string);
  heartbeat_interval : Z
}.

Definition set_agents (ags : list (string * BuildAgent)) (o : Orchestrator) : Orchestrator :=
  mkOrch ags (build_tasks o) (completed_tasks o) (build_graph o) (heartbeat_interval o).

Definition set_build_tasks (l : list BuildTask) (o : Orchestrator) : Orchestrator :=
  mkOrch (agents o) l (completed_tasks o) (build_graph o) (heartbeat_interval o).

Definition set_completed_tasks (l : list BuildTask) (o : Orchestrator) : Orchestrator :=
  mkOrch (agents o) (build_tasks o) l (build_graph o) (heartbeat_interval o).

Definition set_build_graph (g : gmap string (list string)) (o : Orchestrator) : Orchestrator :=
  mkOrch (agents o) (build_tasks o) (completed_tasks o) g (heartbeat_interval o).

Definition set_task_priority (p : Z) (t : BuildTask) : BuildTask :=
  mkTask (task_target t) (task_directory t) p (task_dependencies t)
         (task_assigned_agent t) (task_status t) (task_start_time t) (task_end_time t).

(** ** Stable descending sort

    [sort(key=k, reverse=True)]: the element being placed goes in front of
    the first element whose key is not larger than its own, so that among
    equal keys the earlier element of the input stays in front. *)

Section StableSort.
Context {A : Type} (key : A → Z).

Fixpoint insert_desc (x : A) (l : list A) : list A :=
  match l with
  | [] => [x]
  | y :: l' => if key x <? key y then y :: insert_desc x l' else x :: l
  end.

Definition sort_desc (l : list A) : list A := foldr insert_desc [] l.

End StableSort.

(** ** Ready-task selection *)

(** [{t.target for t in self.completed_tasks}] *)
Definition completed_targets (o : Orchestrator) : gset string :=
  list_to_set (task_target <$> completed_tasks o).

(** [all(dep in completed_targets for dep in task.dependencies)] *)
Definition deps_completed (ct : gset string) (t : BuildTask) : bool :=
  forallb (λ dep, bool_decide (dep ∈ ct)) (task_dependencies t).

(** [_get_next_task]: sort the pending list in place, then pop the first
    task whose dependencies are all completed. *)
Definition _get_next_task (o : Orchestrator) : option BuildTask * Orchestrator :=
  let sorted := sort_desc task_priority (build_tasks o) in
  let ct := completed_targets o in
  match list_find (λ t, deps_completed ct t = true) sorted with
  | Some (i, t) => (Some t, set_build_tasks (delete i sorted) o)
  | None => (None, set_build_tasks sorted o)
  end.

(** A task is ready when each of its dependency ids is the target of some
    task of the completed list. *)
Definition ready (o : Orchestrator) (t : BuildTask) : Prop :=
  ∀ dep, dep ∈ task_dependencies t →
    ∃ c, c ∈ completed_tasks o ∧ task_target c = dep.

(** ** Agent registry *)

(** [self.agents[agent.name] = agent] on an insertion-ordered dict: an
    existing key keeps its position, a new key goes last. *)
Fixpoint dict_set {V : Type} (k : string) (v : V) (d : list (string * V)) : list (string * V) :=
  match d with
  | [] => [(k, v)]
  | (k', v') :: d' =>
      if decide (k' = k) then (k, v) :: d' else (k', v') :: dict_set k v d'
  end.

Definition register (a : BuildAgent) (ags : list (string * BuildAgent)) : list (string * BuildAgent) :=
  dict_set (agent_name a) a ags.

(** The two writes of [_reserve_agent] on the chosen agent object. *)
Definition reserve_for (target : string) (a : BuildAgent) : BuildAgent :=
  mkAgent (agent_name a) (agent_host a) (agent_port a) (agent_cores a)
          "busy" (Some target)
          (agent_load a) (agent_available_memory a) (agent_last_seen a).

(** The two writes that release an agent in [_task_executor]. *)
Definition release (a : BuildAgent) : BuildAgent :=
  mkAgent (agent_name a) (agent_host a) (agent_port a) (agent_cores a)
          "idle" None
          (agent_load a) (agent_available_memory a) (agent_last_seen a).

(** An agent object is known by its slot in the registry: the values of the
    dict, each with its position. *)
Definition slots (ags : list (string * BuildAgent)) : list (nat * BuildAgent) :=
  imap (λ i kv, (i, kv.2)) ags.

(** [[a for a in self.agents.values() if a.status == "idle"]] *)
Definition idle_agents (ags : list (string * BuildAgent)) : list (nat * BuildAgent) :=
  filter (λ s, agent_status s.2 = "idle") (slots ags).

(** A write through an agent reference: the object in slot [i] changes,
    its key and every other slot stay. *)
Definition update_slot (i : nat) (f : BuildAgent → BuildAgent)
    (ags : list (string * BuildAgent)) : list (string * BuildAgent) :=
  alter (λ kv, (kv.1, f kv.2)) i ags.

(** [_reserve_agent]: the result is the slot of the reserved agent and the
    agent as it stands after the two writes. *)
Definition _reserve_agent (task : BuildTask) (o : Orchestrator)
    : option (nat * BuildAgent) * Orchestrator :=
  match sort_desc (λ s, agent_cores s.2) (idle_agents (agents o)) with
  | [] => (None, o)
  | (i, best_agent) :: _ =>
      (Some (i, reserve_for (task_target task) best_agent),
       set_agents (update_slot i (reserve_for (task_target task)) (agents o)) o)
  end.

(** ** Task execution and resolution *)

(** What running [ninja <target>] in the task's directory gave: an exit
    status, or an exception raised on the way. *)
Inductive RunResult :=
  | Exited (returncode : Z)
  | Raised.

Definition set_task_running (now : Z) (agent : BuildAgent) (t : BuildTask) : BuildTask :=
  mkTask (task_target t) (task_directory t) (task_priority t) (task_dependencies t)
         (Some (agent_name agent)) "running" (Some now) (task_end_time t).

Definition set_task_finished (now : Z) (st : string) (t : BuildTask) : BuildTask :=
  mkTask (task_target t) (task_directory t) (task_priority t) (task_dependencies t)
         (task_assigned_agent t) st (task_start_time t) (Some now).

(** [_execute_task_on_agent]. [ninja_build directory target] is the local
    build command; [t0] and [t1] are the two clock readings. A non-local
    agent is simulated and always succeeds. *)
Definition _execute_task_on_agent (ninja_build : string → string → RunResult)
    (t0 t1 : Z) (task : BuildTask) (agent : BuildAgent) : bool * BuildTask :=
  let task := set_task_running t0 agent task in
  if decide (agent_host agent = "localhost") then
    match ninja_build (task_directory task) (task_target task) with
    | Exited rc =>
        let success := bool_decide (rc = 0) in
        (success, set_task_finished t1 (if success then "completed" else "failed") task)
    | Raised => (false, set_task_finished t1 "failed" task)
    end
  else (true, set_task_finished t1 "completed" task).

(** The critical section that ends an iteration of [_task_executor]: the
    agent in slot [i] is released, then the task goes to the completed list
    or back to the pending list with half its priority. *)
Definition resolve (success : bool) (i : nat) (task : BuildTask) (o : Orchestrator) : Orchestrator :=
  let o := set_agents (update_slot i release (agents o)) o in
  if success then set_completed_tasks (completed_tasks o ++ [task]) o
  else set_build_tasks (build_tasks o ++ [set_task_priority (task_priority task / 2) task]) o.

(** One pass through the body of the [while] loop of [_task_executor]. *)
Definition _task_executor_iteration (ninja_build : string → string → RunResult)
    (t0 t1 : Z) (o : Orchestrator) : Orchestrator :=
  match _get_next_task o with
  | (None, o) => o
  | (Some task, o) =>
      match _reserve_agent task o with
      | (None, o) => set_build_tasks (build_tasks o ++ [task]) o
      | (Some (i, agent), o) =>
          let '(success, task) := _execute_task_on_agent ninja_build t0 t1 task agent in
          resolve success i task o
      end
  end.

(** ** Heartbeat monitor *)

Definition set_agent_last_seen (now : Z) (a : BuildAgent) : BuildAgent :=
  mkAgent (agent_name a) (agent_host a) (agent_port a) (agent_cores a)
          (agent_status a) (agent_current_task a)
          (agent_load a) (agent_available_memory a) now.

Definition set_agent_status (st : string) (a : BuildAgent) : BuildAgent :=
  mkAgent (agent_name a) (agent_host a) (agent_port a) (agent_cores a)
          st (agent_current_task a)
          (agent_load a) (agent_available_memory a) (agent_last_seen a).

(** [current_time - agent.last_seen > self.config["heartbeat_interval"] * 3] *)
Definition stale (interval now : Z) (a : BuildAgent) : bool :=
  interval * 3 <? now - agent_last_seen a.

(** The body of the [for] loop of [_agent_heartbeat_monitor]. *)
Definition heartbeat_check (interval now : Z) (a : BuildAgent) : BuildAgent :=
  if stale interval now a then
    if decide (agent_host a = "localhost") then set_agent_last_seen now a
    else set_agent_status "unavailable" a
  else a.

(** One iteration of the [while] loop of [_agent_heartbeat_monitor], at
    clock reading [now]. *)
Definition _agent_heartbeat_monitor_iteration (now : Z) (o : Orchestrator) : Orchestrator :=
  set_agents
    (map (λ kv, (kv.1, heartbeat_check (heartbeat_interval o) now kv.2)) (agents o)) o.

(** ** Topological sort *)

(** The outcome of a computation that recurses: a value, a Python
    [KeyError] (from [set.remove] on an absent element), or a Python
    [RecursionError] (a call nested deeper than the interpreter allows).
    Nothing in the class catches either exception: it leaves the method and
    its callers. *)
Inductive Res (A : Type) :=
  | Ok (a : A)
  | KeyError
  | RecursionError.
Arguments Ok {A} a.
Arguments KeyError {A}.
Arguments RecursionError {A}.

Definition res_bind {A B : Type} (r : Res A) (f : A → Res B) : Res B :=
  match r with
  | Ok a => f a
  | KeyError => KeyError
  | RecursionError => RecursionError
  end.

(** A [for] loop whose body may fail, threading the state. *)
Fixpoint for_each {A S : Type} (body : A → S → Res S) (l : list A) (s : S) : Res S :=
  match l with
  | [] => Ok s
  | x :: l' => res_bind (body x s) (for_each body l')
  end.

(** The three variables that the closure [visit] shares with
    [_topological_sort]. *)
Record SortState := mkSort {
  visited : gset string;
  temp_visited : gset string;
  result : list BuildTask
}.

(** [{task.target: task for task in tasks}]: a later task of the same
    target replaces an earlier one. *)
Definition target_to_task_of (tasks : list BuildTask) : gmap string BuildTask :=
  foldl (λ m t, <[task_target t := t]> m) ∅ tasks.

Section Visit.
Context (graph : gmap string (list string)) (target_to_task : gmap string BuildTask).
Context (warning_frames : nat).

(** [visit]. [frames] is the number of calls that can still be nested
    before the interpreter's recursion limit is reached: a call of [visit]
    made when none is left raises [RecursionError], and so does the
    [logger.warning] of a cycle when fewer than [warning_frames] are left
    inside the call that makes it. [warning_frames] is the number of nested
    calls that one [logger.warning] takes, its own included. *)
Fixpoint visit (frames : nat) (target : string) (s : SortState) : Res SortState :=
  match frames with
  | O => RecursionError
  | S frames' =>
      if decide (target ∈ temp_visited s) then
        if decide (warning_frames ≤ frames')%nat then Ok s else RecursionError
      else if decide (target ∈ visited s) then Ok s
      else
        let s := mkSort (visited s) ({[target]} ∪ temp_visited s) (result s) in
        res_bind
          (for_each
             (λ dep s, if decide (is_Some (target_to_task !! dep))
                       then visit frames' dep s else Ok s)
             (default [] (graph !! target)) s)
          (λ s,
             if decide (target ∈ temp_visited s) then
               Ok (mkSort ({[target]} ∪ visited s)
                          (temp_visited s ∖ {[target]})
                          (result s ++ match target_to_task !! target with
                                       | Some task => [task]
                                       | None => []
                                       end))
             else KeyError)
  end.

(** The loop [for task in tasks: if task.target not in visited: visit(...)]. *)
Definition visit_all (frames : nat) (tasks : list BuildTask) (s : SortState) : Res SortState :=
  for_each
    (λ task s, if decide (task_target task ∈ visited s) then Ok s
               else visit frames (task_target task) s)
    tasks s.

End Visit.

(** [_topological_sort]. [recursion_limit] is what the interpreter's
    recursion limit ([sys.getrecursionlimit()], 1000 unless changed, and
    the class never changes it) leaves when the method runs: the number of
    calls that can be nested inside it. *)
Definition _topological_sort (warning_frames recursion_limit : nat) (o : Orchestrator)
    : Res (list BuildTask) :=
  let tasks := build_tasks o in
  res_bind
    (visit_all (build_graph o) (target_to_task_of tasks) warning_frames recursion_limit
               tasks (mkSort ∅ ∅ []))
    (λ s, Ok (result s)).

(** What holds of the shared variables between two calls of [visit]: only
    known targets are visited, and the result lists, once each, the tasks
    of the visited targets. *)
Definition sort_inv (target_to_task : gmap string BuildTask) (s : SortState) : Prop :=
  visited s ⊆ dom target_to_task ∧
  NoDup (task_target <$> result s) ∧
  (∀ x, x ∈ task_target <$> result s ↔ x ∈ visited s) ∧
  (∀ t, t ∈ result s → target_to_task !! task_target t = Some t).

(** What a call that started in [s] leaves in [s']: the in-progress set is
    restored, nothing is removed, and nothing in progress gets visited. *)
Definition visit_post (target_to_task : gmap string BuildTask) (s s' : SortState) : Prop :=
  sort_inv target_to_task s' ∧ temp_visited s' = temp_visited s ∧
  visited s ⊆ visited s' ∧
  (∀ x, x ∈ visited s' → x ∈ visited s ∨ x ∉ temp_visited s).

(** ** Priority plan *)

(** [sum(1 for t in self.build_graph.values() if task.target in t)] *)
Definition dependents_count (graph : gmap string (list string)) (target : string) : Z :=
  Z.of_nat (length (filter (λ kv : string * list string, target ∈ kv.2) (map_to_list graph))).

(** The [for i, task in enumerate(sorted_tasks)] loop. *)
Definition assign_priorities (graph : gmap string (list string)) (l : list BuildTask)
    : list BuildTask :=
  imap (λ i task,
          set_task_priority (Z.of_nat i + dependents_count graph (task_target task) * 10) task)
       l.

(** [optimize_build_plan]. An exception of [_topological_sort] leaves the
    method before anything is written: the orchestrator stays as it was.
    [recursion_limit] is the room inside the call of [_topological_sort]
    that the method makes. *)
Definition optimize_build_plan (warning_frames recursion_limit : nat) (o : Orchestrator)
    : Res Orchestrator :=
  res_bind (_topological_sort warning_frames recursion_limit o)
    (λ sorted_tasks,
       Ok (set_build_tasks
             (sort_desc task_priority (assign_priorities (build_graph o) sorted_tasks)) o)).

(** The number of tasks of [tasks], other than those of target [target],
    whose dependencies include [target]. *)
Definition other_dependents (tasks : list BuildTask) (target : string) : Z :=
  Z.of_nat (length (filter (λ u, task_target u ≠ target ∧ target ∈ task_dependencies u) tasks)).

(** ** Python string methods

    Strings are sequences of code points below 256. *)

(** [str.isspace] on one character. *)
Definition is_py_space (c : ascii) : bool :=
  let n := nat_of_ascii c in
  ((9 <=? n) && (n <=? 13) || (28 <=? n) && (n <=? 32) || (n =? 133) || (n =? 160))%nat.

(** The line boundaries of [str.splitlines]. *)
Definition is_linebreak (c : ascii) : bool :=
  let n := nat_of_ascii c in
  ((10 <=? n) && (n <=? 13) || (28 <=? n) && (n <=? 30) || (n =? 133))%nat.

Definition nl : string := String (ascii_of_nat 10) "".
Definition dquote : string := String (ascii_of_nat 34) "".
Definition backslash : string := String (ascii_of_nat 92) "".

(** [str.splitlines]: [cur] is the line being read; a line feed right
    after a carriage return belongs to the same boundary. *)
Fixpoint splitlines_go (after_cr : bool) (cur : string) (s : string) : list string :=
  match s with
  | "" => if decide (cur = "") then [] else [cur]
  | String c s' =>
      if after_cr && bool_decide (nat_of_ascii c = 10%nat) then splitlines_go false cur s'
      else if is_linebreak c then
        cur :: splitlines_go (bool_decide (nat_of_ascii c = 13%nat)) "" s'
      else splitlines_go false (cur ++ String c "")%string s'
  end.

Definition splitlines (s : string) : list string := splitlines_go false "" s.

Fixpoint lstrip (s : string) : string :=
  match s with
  | "" => ""
  | String c s' => if is_py_space c then lstrip s' else s
  end.

Definition rstrip (s : string) : string := String.rev (lstrip (String.rev s)).

(** [str.strip()] *)
Definition strip (s : string) : string := rstrip (lstrip s).

(** [str.startswith] *)
Definition startswith (p s : string) : bool := String.prefix p s.

(** [s[n:]] *)
Fixpoint str_drop (n : nat) (s : string) : string :=
  match n, s with
  | O, _ => s
  | S n', String _ s' => str_drop n' s'
  | S _, "" => ""
  end.

(** [s.split(':')[0]] *)
Fixpoint before_colon (s : string) : string :=
  match s with
  | "" => ""
  | String c s' => if decide (c = ":"%char) then "" else String c (before_colon s')
  end.

(** [str.split()]: the maximal runs of characters that are not white
    space. *)
Fixpoint split_go (cur : option string) (s : string) : list string :=
  match s with
  | "" => option_list cur
  | String c s' =>
      if is_py_space c then option_list cur ++ split_go None s'
      else split_go (Some (default "" cur ++ String c "")%string) s'
  end.

Definition py_split (s : string) : list string := split_go None s.

(** [os.path.join] of a directory and a relative file name. *)
Definition path_join (dir file : string) : string :=
  if decide (dir = "") then file
  else if String.prefix "/" (String.rev dir) then (dir ++ file)%string
  else (dir ++ "/" ++ file)%string.

(** ** Graph ingestion *)

(** What a [subprocess.check_output(...).decode()] gave: the text, a
    [CalledProcessError] (non-zero exit), or any other exception. *)
Inductive CmdResult :=
  | Output (text : string)
  | CalledProcessError
  | OtherError.

(** The ninja command line, as a function of the files on disk: [ninja -t
    targets all] and [ninja -t query <target>], both run in a build
    directory. *)
Record BuildTool := mkTool {
  targets_all : gmap string string → string → CmdResult;
  query : gmap string string → string → string → CmdResult
}.

(** The text written to [build.ninja] when there is none. *)
Definition minimal_build_ninja (build_dir : string) : string :=
  ("# Minimal build.ninja file generated by ninja-team.py" ++ nl ++
  "rule cxx" ++ nl ++
  "  command = g++ -MMD -MT $out -MF $out.d -o $out -c $in" ++ nl ++
  "  description = CXX $out" ++ nl ++
  "  depfile = $out.d" ++ nl ++
  "  deps = gcc" ++ nl ++
  nl ++
  "rule link" ++ nl ++
  "  command = g++ -o $out $in" ++ nl ++
  "  description = LINK $out" ++ nl ++
  nl ++
  "build " ++ build_dir ++ "/placeholder.o: cxx placeholder.cpp" ++ nl ++
  "build " ++ build_dir ++ "/placeholder: link " ++ build_dir ++ "/placeholder.o" ++ nl ++
  nl ++
  "default " ++ build_dir ++ "/placeholder" ++ nl)%string.

(** The text written to [placeholder.cpp]. *)
Definition placeholder_cpp : string :=
  ("// Placeholder source file for build system" ++ nl ++
  "#include <iostream>" ++ nl ++
  nl ++
  "int main() {" ++ nl ++
  "    std::cout << " ++ dquote ++ "Watsonx Code Assistant Ninja Build Team"
    ++ backslash ++ "n" ++ dquote ++ ";" ++ nl ++
  "    return 0;" ++ nl ++
  "}" ++ nl)%string.

(** The targets named by the output of [ninja -t targets all]. *)
Definition parse_targets (output : string) : list string :=
  omap (λ line,
          if decide (line = "") then None
          else if startswith "#" line then None
          else let target := strip (before_colon line) in
               if decide (target = "") then None else Some target)
       (splitlines output).

(** The dependencies named by the output of [ninja -t query], whose first
    line is the target itself. *)
Definition parse_deps (output : string) : list string :=
  omap (λ line, let d := strip line in if decide (d = "") then None else Some d)
       (tail (splitlines output)).

Definition new_task (target build_dir : string) (deps : list string) : BuildTask :=
  mkTask target build_dir 0 deps None "pending" None None.

(** The loop over the targets: a query that exits non-zero is logged and
    skipped; any other exception leaves the loop and the [try]. *)
Fixpoint query_targets (tool : BuildTool) (fs : gmap string string) (build_dir : string)
    (targets : list string) (o : Orchestrator) : bool * Orchestrator :=
  match targets with
  | [] => (true, o)
  | target :: rest =>
      match query tool fs build_dir target with
      | Output output =>
          let deps := parse_deps output in
          let o := set_build_tasks (build_tasks o ++ [new_task target build_dir deps]) o in
          let o := set_build_graph (<[target := deps]> (build_graph o)) o in
          query_targets tool fs build_dir rest o
      | CalledProcessError => query_targets tool fs build_dir rest o
      | OtherError => (false, o)
      end
  end.

(** What writing a text file ([open(path, "w")], then [f.write(text)])
    gave: the file holds the text, or an [OSError] was raised, with the
    files that this leaves on disk. *)
Inductive WriteResult :=
  | Written
  | WriteError (left_on_disk : gmap string string).

(** The file-system calls that can raise, as functions of the files on
    disk: whether [os.makedirs(path, exist_ok=True)] succeeds, and what
    writing a text to a path gives. *)
Record FileSystem := mkFiles {
  makedirs : gmap string string → string → bool;
  write_text : gmap string string → string → string → WriteResult
}.

(** What the block under [if not os.path.exists(ninja_file)] gave: the
    files on disk on entry to the [try], or an [OSError] on its way out of
    the method, with the files on disk then. *)
Inductive Prepared :=
  | Ready (fs : gmap string string)
  | OSError (fs : gmap string string).

(** [parse_build_tasks]: the files on disk are part of the state. The
    result is [None] when an [OSError] leaves the method: [os.makedirs] and
    the two [open(..., "w")] stand before the [try]. *)
Definition parse_build_tasks (files : FileSystem) (tool : BuildTool) (build_dir : string)
    (fs : gmap string string) (o : Orchestrator)
    : option bool * gmap string string * Orchestrator :=
  let ninja_file := path_join build_dir "build.ninja" in
  let prepared :=
    if decide (is_Some (fs !! ninja_file)) then Ready fs
    else if makedirs files fs build_dir then
      match write_text files fs ninja_file (minimal_build_ninja build_dir) with
      | Written =>
          let fs := <[ninja_file := minimal_build_ninja build_dir]> fs in
          match write_text files fs "placeholder.cpp" placeholder_cpp with
          | Written => Ready (<["placeholder.cpp" := placeholder_cpp]> fs)
          | WriteError fs => OSError fs
          end
      | WriteError fs => OSError fs
      end
    else OSError fs in
  match prepared with
  | OSError fs => (None, fs, o)
  | Ready fs =>
      match targets_all tool fs build_dir with
      | Output output =>
          let '(ok, o) := query_targets tool fs build_dir (parse_targets output) o in
          (Some ok, fs, o)
      | _ => (Some false, fs, o)
      end
  end.

(** ** Host discovery *)

Definition DEFAULT_PORT : Z := 8374.

(** What the probe exchange on a socket gave: no decoded response at all
    (connection refused, timed out, reset, undecodable bytes: every
    exception of the [with] block up to [decode]), or the decoded text. *)
Inductive ProbeReply :=
  | NoReply
  | Reply (raw : string).

(** The outside of the discovery code: the network, [json.loads] followed
    by the three subscripts (name, cores, memory; [None] when any of them
    raises), [int] on a port field, and the clock. *)
Record Outside := mkOutside {
  probe : string → Z → ProbeReply;
  agent_data : string → option (string * Z * Z);
  py_int : string → option Z;
  clock : Z
}.

(** [_probe_and_register_agent]: every exception is caught and logged. *)
Definition _probe_and_register_agent (w : Outside) (host : string) (port : Z)
    (o : Orchestrator) : Orchestrator :=
  match probe w host port with
  | NoReply => o
  | Reply raw =>
      let response := strip raw in
      if startswith "NINJA-AGENT:" response then
        match agent_data w (str_drop 12 response) with
        | Some (name, cores, memory) =>
            let agent := mkAgent name host port cores "idle" None 0 memory (clock w) in
            set_agents (register agent (agents o)) o
        | None => o
        end
      else o
  end.

(** What one line of the hosts file asks for. *)
Inductive HostLine :=
  | Skip
  | Host (host : string) (port : Z)
  | BadPort.

Definition parse_host_line (w : Outside) (line : string) : HostLine :=
  let line := strip line in
  if decide (line = "") then Skip
  else if startswith "#" line then Skip
  else match py_split line with
       | [] => Skip
       | [host] => Host host DEFAULT_PORT
       | host :: p :: _ =>
           match py_int w p with
           | Some port => Host host port
           | None => BadPort
           end
       end.

(** The [for line in f] loop of [_discover_from_hosts_file]; a port that
    [int] rejects raises out of the loop into the [except] of the method. *)
Fixpoint discover_lines (w : Outside) (lines : list string) (o : Orchestrator) : Orchestrator :=
  match lines with
  | [] => o
  | line :: rest =>
      match parse_host_line w line with
      | Skip => discover_lines w rest o
      | Host host port => discover_lines w rest (_probe_and_register_agent w host port o)
      | BadPort => o
      end
  end.

(** [_discover_from_hosts_file]; [None] is a file that cannot be opened. *)
Definition _discover_from_hosts_file (w : Outside) (hosts_file : option (list string))
    (o : Orchestrator) : Orchestrator :=
  match hosts_file with
  | Some lines => discover_lines w lines o
  | None => o
  end.

(** ** Sample states

    Small concrete states on which the properties below are exercised. *)

Definition local_agent : BuildAgent :=
  mkAgent "buildbox-local" "localhost" 8374 8 "idle" None 0 8192 100.

Definition remote_agent : BuildAgent :=
  mkAgent "farm-1" "10.0.0.7" 8374 8 "idle" None 0 4096 100.

Definition small_agent : BuildAgent :=
  mkAgent "farm-2" "10.0.0.8" 8374 4 "busy" (Some "lib.o") 0 4096 100.

Definition task_lib : BuildTask := mkTask "lib.o" "build" 7 [] None "pending" None None.
Definition task_app : BuildTask := mkTask "app" "build" 9 ["lib.o"] None "pending" None None.
Definition task_doc : BuildTask := mkTask "doc" "build" 7 [] None "pending" None None.

Definition sample_graph : gmap string (list string) :=
  <["lib.o" := []]> (<["app" := ["lib.o"]]> (<["doc" := []]> ∅)).

Definition sample_state : Orchestrator :=
  mkOrch [("farm-2", small_agent); ("buildbox-local", local_agent); ("farm-1", remote_agent)]
         [task_lib; task_app; task_doc] [] sample_graph 5.

(** One pending task and the local agent alone. *)
Definition lone_state : Orchestrator :=
  mkOrch [("buildbox-local", local_agent)] [task_lib] [] (<["lib.o" := []]> ∅) 5.

(** A build command that always exits with status 1. *)
Definition failing_build : string → string → RunResult := λ _ _, Exited 1.

(** [lone_state] after the local agent has been reserved for [task_lib]. *)
Definition reserved_state : Orchestrator := (_reserve_agent task_lib lone_state).2.

(** The local agent seen one tick before the clock reading 101. *)
Definition fresh_state : Orchestrator :=
  mkOrch [("buildbox-local", local_agent); ("farm-1", remote_agent)] [] [] ∅ 5.

(** The two-task cycle A -> B -> A. *)
Definition task_A : BuildTask := mkTask "A" "build" 0 ["B"] None "pending" None None.
Definition task_B : BuildTask := mkTask "B" "build" 0 ["A"] None "pending" None None.

Definition cycle_state : Orchestrator :=
  mkOrch [] [task_A; task_B] [] (<["A" := ["B"]]> (<["B" := ["A"]]> ∅)) 5.

(** A task that lists a source file, which is the target of no task. *)
Definition task_src : BuildTask := mkTask "app" "build" 0 ["main.c"] None "pending" None None.

Definition unknown_dep_state : Orchestrator :=
  mkOrch [("buildbox-local", local_agent)] [task_src] [] (<["app" := ["main.c"]]> ∅) 5.

(** A task that lists its own target among its dependencies. *)
Definition task_self : BuildTask := mkTask "gen" "build" 0 ["gen"] None "pending" None None.

Definition self_dep_state : Orchestrator :=
  mkOrch [] [task_self] [] (<["gen" := ["gen"]]> ∅) 5.

Definition empty_state : Orchestrator := mkOrch [] [] [] ∅ 5.

(** A ninja that cannot be run at all. *)
Definition absent_tool : BuildTool := mkTool (λ _ _, OtherError) (λ _ _ _, OtherError).

(** A ninja that lists two targets and fails every query. *)
Definition listing_only_tool : BuildTool :=
  mkTool (λ _ _, Output ("lib.o: cxx" ++ nl ++ "app: link" ++ nl)%string)
         (λ _ _ _, CalledProcessError).

(** A ninja that reads [build/build.ninja] when it is there, and answers
    for the two targets of the minimal file. *)
Definition placeholder_tool : BuildTool :=
  mkTool
    (λ fs _, if decide (is_Some (fs !! "build/build.ninja"))
             then Output ("build/placeholder.o: cxx" ++ nl ++
                          "build/placeholder: link" ++ nl)%string
             else CalledProcessError)
    (λ fs _ target,
       if decide (target = "build/placeholder.o")
       then Output ("build/placeholder.o:" ++ nl ++ "  input: cxx" ++ nl ++
                    "    placeholder.cpp" ++ nl ++ "  outputs:" ++ nl ++
                    "    build/placeholder" ++ nl)%string
       else if decide (target = "build/placeholder")
       then Output ("build/placeholder:" ++ nl ++ "  input: link" ++ nl ++
                    "    build/placeholder.o" ++ nl ++ "  outputs:" ++ nl)%string
       else CalledProcessError).

(** A ninja that fails the query of [lib.o] only. *)
Definition flaky_tool : BuildTool :=
  mkTool (λ _ _, Output ("lib.o: cxx" ++ nl ++ "app: link" ++ nl)%string)
         (λ _ _ target,
            if decide (target = "lib.o") then CalledProcessError
            else Output ("app:" ++ nl ++ "    lib.o" ++ nl)%string).

(** The task and the graph entry that a query output gives. *)
Definition task_of_query (tool : BuildTool) (fs : gmap string string) (build_dir : string)
    (target : string) : option BuildTask :=
  match query tool fs build_dir target with
  | Output output => Some (new_task target build_dir (parse_deps output))
  | _ => None
  end.

Definition graph_after_query (tool : BuildTool) (fs : gmap string string) (build_dir : string)
    (g : gmap string (list string)) (target : string) : gmap string (list string) :=
  match query tool fs build_dir target with
  | Output output => <[target := parse_deps output]> g
  | _ => g
  end.

(** A network with one agent at 10.0.0.7; every other host refuses. *)
Definition farm_payload : string :=
  ("{" ++ dquote ++ "name" ++ dquote ++ ": " ++ dquote ++ "farm-1" ++ dquote ++ ", " ++
   dquote ++ "cores" ++ dquote ++ ": 8, " ++
   dquote ++ "memory" ++ dquote ++ ": 4096}")%string.

Definition farm_network : Outside :=
  mkOutside
    (λ host _, if decide (host = "10.0.0.7")
               then Reply ("NINJA-AGENT:" ++ farm_payload ++ nl)%string
               else if decide (host = "10.0.0.5") then Reply "HTTP/1.1 400 Bad Request"
               else NoReply)
    (λ payload, if decide (payload = farm_payload) then Some ("farm-1", 8, 4096) else None)
    (λ s, if decide (s = "8374") then Some 8374 else None)
    100.

Definition farm_hosts : list string :=
  ["# build farm" ++ nl; "10.0.0.9 8374" ++ nl; "10.0.0.5" ++ nl; "10.0.0.7" ++ nl]%string.

(** The graph that ingestion records for a list of tasks: one assignment
    [build_graph[target] = deps] per task, in order. *)
Definition graph_of (tasks : list BuildTask) : gmap string (list string) :=
  foldl (λ g t, <[task_target t := task_dependencies t]> g) ∅ tasks.

(** Three tasks without a self-dependency: lib.o feeds app and test. *)
Definition task_test : BuildTask := mkTask "test" "build" 0 ["lib.o"] None "pending" None None.

Definition plan_state : Orchestrator :=
  mkOrch [] [task_app; task_lib; task_test] [] (graph_of [task_app; task_lib; task_test]) 5.

(** A chain of [n] tasks without a cycle: t0 needs t1, which needs t2, and
    so on; the last one needs nothing. The graph is the one ingestion
    records for them. *)
Definition chain_target (i : nat) : string := ("t" ++ pretty i)%string.

Definition chain_task (n i : nat) : BuildTask :=
  mkTask (chain_target i) "build" 0
         (if decide (S i < n)%nat then [chain_target (S i)] else [])
         None "pending" None None.

Definition chain_tasks (n : nat) : list BuildTask := chain_task n <$> seq 0 n.

Definition chain_state (n : nat) : Orchestrator :=
  mkOrch [] (chain_tasks n) [] (graph_of (chain_tasks n)) 5.

(** A file system on which [os.makedirs] fails for the empty path and for
    a path that names a file, and every write succeeds. *)
Definition plain_files : FileSystem :=
  mkFiles (λ fs path, bool_decide (path ≠ "" ∧ fs !! path = None)) (λ _ _ _, Written).

(** A file system on which the build file can be written and
    placeholder.cpp cannot; the failed write leaves the disk as it found
    it. *)
Definition read_only_cwd : FileSystem :=
  mkFiles (λ _ _, true)
          (λ fs path _, if decide (path = "placeholder.cpp") then WriteError fs else Written).

(** A disk that already holds a build file. *)
Definition build_disk : gmap string string := <["build/build.ninja" := "rule cc"]> ∅.

(** ** Dependency edges

    [dep_edge graph target_to_task x d]: the traversal, at [x], follows
    the edge to [d]: [d] is listed under [x] in the graph and is the target
    of a task. *)
Definition dep_edge (graph : gmap string (list string))
    (target_to_task : gmap string BuildTask) (x d : string) : Prop :=
  d ∈ default [] (graph !! x) ∧ is_Some (target_to_task !! d).

(** In [l], a task comes after the tasks of those of its followed
    dependencies from which no chain of followed edges leads back to it. *)
Definition deps_first (graph : gmap string (list string))
    (target_to_task : gmap string BuildTask) (l : list BuildTask) : Prop :=
  ∀ (i : nat) x d, l !! i = Some x →
    dep_edge graph target_to_task (task_target x) d →
    ¬ rtc (dep_edge graph target_to_task) d (task_target x) →
    ∃ (j : nat) y, (j < i)%nat ∧ l !! j = Some y ∧ task_target y = d.

(** A diamond: app needs lib.o and gen.o, which both need cfg.h. *)
Definition task_cfg : BuildTask := mkTask "cfg.h" "build" 0 [] None "pending" None None.
Definition task_gen : BuildTask := mkTask "gen.o" "build" 0 ["cfg.h"] None "pending" None None.
Definition task_lib2 : BuildTask := mkTask "lib.o" "build" 0 ["cfg.h"] None "pending" None None.
Definition task_app2 : BuildTask :=
  mkTask "app" "build" 0 ["lib.o"; "gen.o"] None "pending" None None.

Definition diamond_tasks : list BuildTask := [task_app2; task_gen; task_lib2; task_cfg].

Definition diamond_state : Orchestrator :=
  mkOrch [("buildbox-local", local_agent)] diamond_tasks []
         (foldl (λ g t, <[task_target t := task_dependencies t]> g) ∅ diamond_tasks) 5.

(** A numbering of the diamond under which dependencies come first. *)
Definition diamond_rank (target : string) : nat :=
  if decide (target = "cfg.h") then 0%nat
  else if decide (target = "app") then 2%nat
  else 1%nat.

(** ** Runs of the executor loop *)

(** What identifies a task through its life: the fields that no method
    writes after construction. *)
Definition task_plan (t : BuildTask) : string * string * list string :=
  (task_target t, task_directory t, task_dependencies t).

(** Every completed task has all its dependencies among the completed
    targets. *)
Definition deps_closed (o : Orchestrator) : Prop :=
  ∀ c, c ∈ completed_tasks o → ready o c.

(** Successive passes through the [while] loop of one [_task_executor],
    one pair of clock readings per pass. *)
Fixpoint executor_run (ninja_build : string → string → RunResult)
    (clocks : list (Z * Z)) (o : Orchestrator) : Orchestrator :=
  match clocks with
  | [] => o
  | (t0, t1) :: rest =>
      executor_run ninja_build rest (_task_executor_iteration ninja_build t0 t1 o)
  end.

(** A build command that always exits with status 0. *)
Definition passing_build : string → string → RunResult := λ _ _, Exited 0.

(** The diamond after two passes of the loop: cfg.h and gen.o are built,
    lib.o and app are pending. *)
Definition diamond_half_built : Orchestrator :=
  executor_run passing_build [(200, 201); (202, 205)] diamond_state.

(** ** Discovery and deployment *)

(** [class BuildMode] *)
Inductive BuildMode :=
  | SINGLE_NODE
  | DISTRIBUTED
  | RECURSIVE
  | CLOUD.

(** What [_register_local_agent] reads from the machine:
    [socket.gethostname()], [multiprocessing.cpu_count()] and
    [_get_system_memory()]. *)
Record Machine := mkMachine {
  hostname : string;
  cpu_count : Z;
  system_memory : Z
}.

(** [_register_local_agent]; [master_port] is [self.master_port]. *)
Definition _register_local_agent (w : Outside) (m : Machine) (master_port : Z)
    (o : Orchestrator) : Orchestrator :=
  let agent := mkAgent (hostname m ++ "-local")%string "localhost" master_port (cpu_count m)
                       "idle" None 0 (system_memory m) (clock w) in
  set_agents (register agent (agents o)) o.

(** [discover_agents]. [hosts_file] is [None] when no path was given (or
    an empty one, which is false all the same), and otherwise what opening
    the path gave. Discovery over the network is a
    placeholder that does nothing. *)
Definition discover_agents (w : Outside) (m : Machine) (master_port : Z) (mode : BuildMode)
    (hosts_file : option (option (list string))) (o : Orchestrator) : nat * Orchestrator :=
  let o := _register_local_agent w m master_port o in
  let o :=
    match mode with
    | DISTRIBUTED | RECURSIVE =>
        match hosts_file with
        | Some file => _discover_from_hosts_file w file o
        | None => o
        end
    | SINGLE_NODE | CLOUD => o
    end in
  (length (agents o), o).

(** [_deploy_agent_to_host]: nothing in it can raise, so the [except] of
    the caller, which would drop the agent, is never entered. *)
Definition _deploy_agent_to_host (a : BuildAgent) : BuildAgent :=
  set_agent_status "active" a.

(** [deploy_build_agents] *)
Definition deploy_build_agents (mode : BuildMode) (o : Orchestrator) : Orchestrator :=
  match mode with
  | SINGLE_NODE => o
  | DISTRIBUTED | RECURSIVE | CLOUD =>
      set_agents
        (map (λ kv : string * BuildAgent,
                if decide (agent_host kv.2 = "localhost") then kv
                else (kv.1, _deploy_agent_to_host kv.2))
             (agents o)) o
  end.

(** The registry is a dict keyed by agent name: the keys are distinct and
    each is the name of its agent. *)
Definition registry_wf (ags : list (string * BuildAgent)) : Prop :=
  NoDup ags.*1 ∧ ∀ k a, (k, a) ∈ ags → agent_name a = k.

(** No agent on another host is idle. *)
Definition no_remote_idle (ags : list (string * BuildAgent)) : Prop :=
  ∀ k a, (k, a) ∈ ags → agent_status a = "idle" → agent_host a = "localhost".

Definition buildbox : Machine := mkMachine "buildbox" 8 8192.

(** A hosts file whose second line has a port that is no number. *)
Definition broken_hosts : list string :=
  ["10.0.0.7" ++ nl; "10.0.0.9 http" ++ nl; "10.0.0.7 8374" ++ nl]%string.

(** ** Build summary *)

(** [dict.get(key)] on an insertion-ordered dict. *)
Fixpoint dict_get {V : Type} (k : string) (d : list (string * V)) : option V :=
  match d with
  | [] => None
  | (k', v) :: d' => if decide (k' = k) then Some v else dict_get k d'
  end.

(** The truth value of an optional time stamp: [None] and zero are false. *)
Definition truthy (t : option Z) : bool :=
  match t with
  | Some x => negb (x =? 0)
  | None => false
  end.

(** [task.end_time and task.start_time] *)
Definition timed (t : BuildTask) : bool :=
  truthy (task_end_time t) && truthy (task_start_time t).

(** [task.end_time - task.start_time], for a timed task. *)
Definition duration (t : BuildTask) : Z :=
  default 0 (task_end_time t) - default 0 (task_start_time t).

(** What [_report_build_summary] logs, but for the average, which is a
    quotient of the first two. *)
Record BuildSummary := mkSummary {
  summary_tasks : nat;
  total_duration : Z;
  slowest_task : option BuildTask;
  slowest_duration : Z;
  agent_times : list (string * Z)
}.

(** The body of the first loop over the completed tasks. *)
Definition summary_step (acc : Z * option BuildTask * Z) (task : BuildTask)
    : Z * option BuildTask * Z :=
  let '(total, slowest, slowest_d) := acc in
  if timed task then
    let d := duration task in
    if slowest_d <? d then (total + d, Some task, d) else (total + d, slowest, slowest_d)
  else acc.

(** The body of the second loop, over the agents' busy times. *)
Definition agent_time_step (times : list (string * Z)) (task : BuildTask)
    : list (string * Z) :=
  match task_assigned_agent task with
  | Some agent_name =>
      if timed task
      then dict_set agent_name (default 0 (dict_get agent_name times) + duration task) times
      else times
  | None => times
  end.

(** [_report_build_summary]: [None] is the warning that no task was
    completed. *)
Definition _report_build_summary (o : Orchestrator) : option BuildSummary :=
  match completed_tasks o with
  | [] => None
  | _ =>
      let '(total, slowest, slowest_d) :=
        foldl summary_step (0, None, 0) (completed_tasks o) in
      Some (mkSummary (length (completed_tasks o)) total slowest slowest_d
                      (foldl agent_time_step [] (completed_tasks o)))
  end.

(** The diamond after four passes of a worker with a passing build. *)
Definition diamond_done : Orchestrator :=
  executor_run passing_build [(200, 201); (202, 205); (206, 207); (208, 218)] diamond_state.

(** * Properties *)

(** ** The stable sort *)

Section StableSortFacts.
Context {A : Type} (key : A → Z).

Lemma insert_desc_perm (x : A) (l : list A) : insert_desc key x l ≡ₚ x :: l.
Proof.
  induction l as [|y l IH]; simpl; [done|].
  destruct (key x <? key y); [|done].
  rewrite IH. apply Permutation_swap.
Qed.

Lemma sort_desc_perm (l : list A) : sort_desc key l ≡ₚ l.
Proof.
  induction l as [|x l IH]; simpl; [done|].
  by rewrite insert_desc_perm, IH.
Qed.

Lemma insert_desc_sorted (x : A) (l : list A) :
  StronglySorted (λ a b, key b ≤ key a) l →
  StronglySorted (λ a b, key b ≤ key a) (insert_desc key x l).
Proof.
  induction 1 as [|y l Hl IH Hy]; simpl.
  - repeat constructor.
  - destruct (Z.ltb_spec (key x) (key y)) as [Hlt|Hge].
    + constructor; [done|].
      rewrite insert_desc_perm. constructor; [lia|done].
    + constructor; [by constructor|].
      constructor; [done|].
      eapply Forall_impl; [exact Hy|]. simpl. intros; lia.
Qed.

Lemma sort_desc_sorted (l : list A) :
  StronglySorted (λ a b, key b ≤ key a) (sort_desc key l).
Proof.
  induction l as [|x l IH]; simpl; [constructor|].
  by apply insert_desc_sorted.
Qed.

(** Stability: the elements of any one key come out in the order they
    went in. *)
Lemma insert_desc_stable (k : Z) (x : A) (l : list A) :
  StronglySorted (λ a b, key b ≤ key a) l →
  filter (λ a, key a = k) (insert_desc key x l) = filter (λ a, key a = k) (x :: l).
Proof.
  induction 1 as [|y l Hl IH Hy]; simpl; [done|].
  destruct (Z.ltb_spec (key x) (key y)) as [Hlt|Hge]; [|done].
  rewrite !filter_cons. rewrite IH. rewrite filter_cons.
  repeat case_decide; try done; lia.
Qed.

Lemma sort_desc_stable (k : Z) (l : list A) :
  filter (λ a, key a = k) (sort_desc key l) = filter (λ a, key a = k) l.
Proof.
  induction l as [|x l IH]; simpl; [done|].
  rewrite insert_desc_stable by apply sort_desc_sorted.
  by rewrite !filter_cons, IH.
Qed.

End StableSortFacts.


(** ** Ready-task selection *)

Lemma deps_completed_ready (o : Orchestrator) (t : BuildTask) :
  deps_completed (completed_targets o) t = true ↔ ready o t.
Proof.
  unfold deps_completed, ready, completed_targets.
  induction (task_dependencies t) as [|d ds IH]; simpl.
  - split; [|done]. intros _ dep Hdep. by apply elem_of_nil in Hdep.
  - rewrite andb_true_iff, bool_decide_eq_true, IH.
    rewrite elem_of_list_to_set, list_elem_of_fmap. split.
    + intros [(c & -> & Hc) Hds] dep [->|Hdep]%elem_of_cons; eauto.
    + intros H. split.
      * destruct (H d) as (c & Hc & Hd); [left|]. eauto.
      * intros dep Hdep. apply H. by right.
Qed.

(** The scan of the sorted list: where it stops, and what it skipped. *)
Lemma scan_found (o : Orchestrator) (i : nat) (t : BuildTask) :
  list_find (λ t, deps_completed (completed_targets o) t = true)
            (sort_desc task_priority (build_tasks o)) = Some (i, t) →
  t ∈ build_tasks o ∧ ready o t ∧
  (∀ u, u ∈ build_tasks o → ready o u → task_priority u ≤ task_priority t) ∧
  build_tasks o ≡ₚ t :: delete i (sort_desc task_priority (build_tasks o)).
Proof.
  set (sorted := sort_desc task_priority (build_tasks o)).
  intros (Hi & Hready & Hfirst)%list_find_Some.
  assert (Hperm : sorted ≡ₚ build_tasks o) by apply sort_desc_perm.
  assert (Hsplit : sorted = take i sorted ++ t :: drop (S i) sorted)
    by (symmetry; by apply take_drop_middle).
  split_and!.
  - rewrite <- Hperm. by eapply list_elem_of_lookup_2.
  - by apply deps_completed_ready.
  - intros u Hu Hru. rewrite <- Hperm, Hsplit in Hu.
    apply elem_of_app in Hu as [Hu|Hu].
    + apply list_elem_of_lookup in Hu as (j & Hj).
      apply lookup_take_Some in Hj as [Hj Hlt].
      destruct (Hfirst j u Hj Hlt). by apply deps_completed_ready.
    + apply elem_of_cons in Hu as [->|Hu]; [lia|].
      pose proof (sort_desc_sorted task_priority (build_tasks o)) as Hs.
      fold sorted in Hs. rewrite Hsplit in Hs.
      apply StronglySorted_app_1_r, StronglySorted_cons in Hs as [Hs _].
      rewrite Forall_forall in Hs. by apply Hs.
  - rewrite <- Hperm, delete_take_drop. rewrite Hsplit at 1.
    by rewrite Permutation_middle.
Qed.

(** C1. The ready-task scan returns a pending task only when each of its
    dependency ids is the target of a completed task; the task returned has
    the highest priority among the ready pending tasks; it leaves the
    pending list by the same step (the old pending list is the returned task
    plus the new pending list); and the scan returns nothing exactly when
    no pending task is ready, the empty pending list included. *)
Theorem get_next_task_spec (o : Orchestrator) :
  match _get_next_task o with
  | (Some t, o') =>
      t ∈ build_tasks o ∧ ready o t ∧
      (∀ u, u ∈ build_tasks o → ready o u → task_priority u ≤ task_priority t) ∧
      build_tasks o ≡ₚ t :: build_tasks o' ∧
      completed_tasks o' = completed_tasks o ∧
      agents o' = agents o ∧ build_graph o' = build_graph o
  | (None, o') =>
      build_tasks o' ≡ₚ build_tasks o ∧
      completed_tasks o' = completed_tasks o ∧
      agents o' = agents o ∧ build_graph o' = build_graph o
  end ∧
  ((_get_next_task o).1 = None ↔ ∀ u, u ∈ build_tasks o → ¬ ready o u).
Proof.
  unfold _get_next_task. simpl.
  destruct (list_find _ _) as [[i t]|] eqn:Hfind; simpl.
  - pose proof (scan_found o i t Hfind) as (Hin & Hr & Hmax & Hperm).
    split; [done|]. split; [done|]. intros H. by destruct (H t Hin).
  - split; [split_and!; try done; apply sort_desc_perm|].
    split; [|done]. intros _ u Hu Hr.
    rewrite list_find_None, Forall_forall in Hfind.
    apply (Hfind u); [|by apply deps_completed_ready].
    by rewrite (sort_desc_perm task_priority (build_tasks o)).
Qed.

Lemma get_next_task_spec_witness :
  (_get_next_task sample_state).1 = Some task_lib ∧
  ((_get_next_task sample_state).1 = None ↔
   ∀ u, u ∈ build_tasks sample_state → ¬ ready sample_state u).
Proof.
  split; [reflexivity|]. exact (proj2 (get_next_task_spec sample_state)).
Defined.

(** ** Agent reservation *)

(** The head of a stable descending sort: everything in front of it in the
    input has a strictly smaller key, everything behind it a key that is
    not larger. *)
Lemma sort_desc_head {A : Type} (key : A → Z) (l : list A) (x : A) (rest : list A) :
  sort_desc key l = x :: rest →
  ∃ l1 l2, l = l1 ++ x :: l2 ∧
    Forall (λ y, key y < key x) l1 ∧ Forall (λ y, key y ≤ key x) l2.
Proof.
  revert x rest. induction l as [|y l IH]; intros x rest; simpl; [done|].
  destruct (sort_desc key l) as [|z r] eqn:Hsort; simpl.
  - intros [= <- <-]. exists [], l. split; [done|]. split; [constructor|].
    pose proof (sort_desc_perm key l) as Hp. rewrite Hsort in Hp.
    apply Permutation_nil_l in Hp as <-. constructor.
  - destruct (Z.ltb_spec (key y) (key z)) as [Hlt|Hge].
    + intros [= <- <-].
      destruct (IH z r eq_refl) as (l1 & l2 & -> & H1 & H2).
      exists (y :: l1), l2. split; [done|]. split; [by constructor|done].
    + intros [= <- <-]. exists [], l. split; [done|]. split; [constructor|].
      pose proof (sort_desc_sorted key l) as Hs. rewrite Hsort in Hs.
      apply StronglySorted_cons in Hs as [Hs _].
      rewrite <- (sort_desc_perm key l), Hsort.
      constructor; [lia|]. eapply Forall_impl; [exact Hs|]. simpl. intros; lia.
Qed.

Lemma slots_lookup (ags : list (string * BuildAgent)) (j : nat) :
  slots ags !! j = (λ kv, (j, kv.2)) <$> ags !! j.
Proof. unfold slots. apply list_lookup_imap. Qed.

Lemma elem_of_slots (ags : list (string * BuildAgent)) (j : nat) (b : BuildAgent) :
  (j, b) ∈ slots ags ↔ ∃ k, ags !! j = Some (k, b).
Proof.
  rewrite list_elem_of_lookup. split.
  - intros (n & Hn). rewrite slots_lookup in Hn.
    destruct (ags !! n) as [[k c]|] eqn:E; simplify_eq/=. eauto.
  - intros (k & Hk). exists j. by rewrite slots_lookup, Hk.
Qed.

Lemma imap_slots_increasing (n : nat) (ags : list (string * BuildAgent)) :
  StronglySorted (λ x y : nat * BuildAgent, (x.1 < y.1)%nat)
                 (imap (λ i kv, ((n + i)%nat, kv.2)) ags).
Proof.
  revert n. induction ags as [|kv ags IH]; intros n; simpl; [constructor|].
  assert (Heq : imap ((λ i kv0, ((n + i)%nat, kv0.2)) ∘ S) ags
                = imap (λ i kv0, ((S n + i)%nat, kv0.2)) ags).
  { apply imap_ext. intros i x _. simpl. f_equal. lia. }
  rewrite Heq. constructor; [apply IH|].
  apply Forall_forall. intros [j b] Hj.
  apply list_elem_of_lookup in Hj as (m & Hm).
  rewrite list_lookup_imap in Hm.
  destruct (ags !! m); simplify_eq/=. lia.
Qed.

Lemma slots_increasing (ags : list (string * BuildAgent)) :
  StronglySorted (λ x y : nat * BuildAgent, (x.1 < y.1)%nat) (slots ags).
Proof. apply (imap_slots_increasing 0). Qed.

Lemma StronglySorted_filter_keep {A : Type} (R : A → A → Prop) (P : A → Prop)
    `{∀ x, Decision (P x)} (l : list A) :
  StronglySorted R l → StronglySorted R (filter P l).
Proof.
  induction 1 as [|x l Hl IH Hx]; [constructor|].
  rewrite filter_cons. case_decide; [|done].
  constructor; [done|].
  rewrite Forall_forall in Hx |- *. intros y [_ Hy]%list_elem_of_filter. by apply Hx.
Qed.

Lemma elem_of_idle_agents (ags : list (string * BuildAgent)) (j : nat) (b : BuildAgent) :
  (j, b) ∈ idle_agents ags ↔ (∃ k, ags !! j = Some (k, b)) ∧ agent_status b = "idle".
Proof.
  unfold idle_agents. rewrite list_elem_of_filter, elem_of_slots. simpl. tauto.
Qed.

(** What the sort of the idle agents puts first. *)
Lemma best_idle_agent (ags : list (string * BuildAgent)) (i : nat) (a : BuildAgent)
    (rest : list (nat * BuildAgent)) :
  sort_desc (λ s, agent_cores s.2) (idle_agents ags) = (i, a) :: rest →
  (∃ k, ags !! i = Some (k, a)) ∧ agent_status a = "idle" ∧
  ∀ j k b, ags !! j = Some (k, b) → agent_status b = "idle" →
    agent_cores b ≤ agent_cores a ∧ ((j < i)%nat → agent_cores b < agent_cores a).
Proof.
  intros Hsort.
  destruct (sort_desc_head _ _ _ _ Hsort) as (l1 & l2 & Hl & H1 & H2).
  assert (Hin : (i, a) ∈ idle_agents ags) by (rewrite Hl; set_solver).
  apply elem_of_idle_agents in Hin as [Hi Hidle].
  split; [done|]. split; [done|].
  intros j k b Hj Hb.
  assert (Hjb : (j, b) ∈ idle_agents ags) by (apply elem_of_idle_agents; eauto).
  pose proof (StronglySorted_filter_keep _ (λ s, agent_status s.2 = "idle") _
                (slots_increasing ags)) as Hs.
  fold (idle_agents ags) in Hs. rewrite Hl in Hs, Hjb.
  rewrite Forall_forall in H1, H2.
  apply elem_of_app in Hjb as [Hjb|Hjb].
  - specialize (H1 _ Hjb). simpl in H1. lia.
  - apply elem_of_cons in Hjb as [[= -> ->]|Hjb]; [lia|].
    specialize (H2 _ Hjb). simpl in H2. split; [done|].
    apply StronglySorted_app_1_r, StronglySorted_cons in Hs as [Hs _].
    rewrite Forall_forall in Hs. specialize (Hs _ Hjb). simpl in Hs. lia.
Qed.

Lemma no_idle_agent (ags : list (string * BuildAgent)) :
  sort_desc (λ s, agent_cores s.2) (idle_agents ags) = [] ↔
  ∀ j k b, ags !! j = Some (k, b) → agent_status b ≠ "idle".
Proof.
  split.
  - intros Hsort j k b Hj Hb.
    assert (Hjb : (j, b) ∈ idle_agents ags) by (apply elem_of_idle_agents; eauto).
    rewrite <- (sort_desc_perm (λ s, agent_cores s.2)), Hsort in Hjb.
    by apply elem_of_nil in Hjb.
  - intros Hnone.
    destruct (sort_desc _ _) as [|[i a] rest] eqn:Hsort; [done|].
    apply best_idle_agent in Hsort as ((k & Hk) & Hidle & _).
    by destruct (Hnone i k a).
Qed.

(** C5. Reservation returns nothing exactly when no registered agent is
    idle. Otherwise it returns an idle agent whose core count is the largest
    among the idle agents and, among those of that core count, the one
    registered first; in the same step that agent's status becomes busy and
    its current task the target of the task. *)
Theorem reserve_agent_spec (task : BuildTask) (o : Orchestrator) :
  match _reserve_agent task o with
  | (Some (i, a'), o') =>
      ∃ k a, agents o !! i = Some (k, a) ∧ agent_status a = "idle" ∧
        (∀ j k' b, agents o !! j = Some (k', b) → agent_status b = "idle" →
           agent_cores b ≤ agent_cores a ∧ ((j < i)%nat → agent_cores b < agent_cores a)) ∧
        agents o' !! i = Some (k, a') ∧
        agent_status a' = "busy" ∧
        agent_current_task a' = Some (task_target task) ∧
        agent_cores a' = agent_cores a
  | (None, o') => True
  end ∧
  ((_reserve_agent task o).1 = None ↔
   ∀ j k b, agents o !! j = Some (k, b) → agent_status b ≠ "idle").
Proof.
  unfold _reserve_agent.
  destruct (sort_desc _ _) as [|[i a] rest] eqn:Hsort; simpl.
  - split; [done|]. split; [|done]. intros _. by apply no_idle_agent.
  - pose proof (best_idle_agent _ _ _ _ Hsort) as ((k & Hk) & Hidle & Hbest).
    split.
    + exists k, a. split_and!; try done.
      unfold update_slot. by rewrite list_lookup_alter_eq, Hk.
    + split; [done|]. intros Hnone. by destruct (Hnone i k a).
Qed.

Lemma reserve_agent_spec_witness :
  (_reserve_agent task_lib sample_state).1 = Some (1%nat, reserve_for "lib.o" local_agent) ∧
  ((_reserve_agent task_lib sample_state).1 = None ↔
   ∀ j k b, agents sample_state !! j = Some (k, b) → agent_status b ≠ "idle").
Proof.
  split; [reflexivity|]. exact (proj2 (reserve_agent_spec task_lib sample_state)).
Defined.

(** C10. Reservation touches nothing but the reserved agent: every other
    slot of the registry keeps its key and its agent, the reserved agent
    keeps its key, name, host, port, cores, load, available memory and
    last-seen stamp, and the task lists and the graph stay as they were;
    when nothing is reserved the whole state is unchanged. *)
Theorem reserve_agent_frame (task : BuildTask) (o : Orchestrator) :
  match _reserve_agent task o with
  | (Some (i, a'), o') =>
      (∀ j, j ≠ i → agents o' !! j = agents o !! j) ∧
      length (agents o') = length (agents o) ∧
      (∃ k a, agents o !! i = Some (k, a) ∧ agents o' !! i = Some (k, a') ∧
         agent_name a' = agent_name a ∧ agent_host a' = agent_host a ∧
         agent_port a' = agent_port a ∧ agent_cores a' = agent_cores a ∧
         agent_load a' = agent_load a ∧
         agent_available_memory a' = agent_available_memory a ∧
         agent_last_seen a' = agent_last_seen a) ∧
      build_tasks o' = build_tasks o ∧ completed_tasks o' = completed_tasks o ∧
      build_graph o' = build_graph o ∧ heartbeat_interval o' = heartbeat_interval o
  | (None, o') => o' = o
  end.
Proof.
  unfold _reserve_agent.
  destruct (sort_desc _ _) as [|[i a] rest] eqn:Hsort; simpl; [done|].
  pose proof (best_idle_agent _ _ _ _ Hsort) as ((k & Hk) & _ & _).
  unfold update_slot. split_and!; try done.
  - intros j Hj. by apply list_lookup_alter_ne.
  - apply length_alter.
  - exists k, a. split_and!; try done. by rewrite list_lookup_alter_eq, Hk.
Qed.

Lemma reserve_agent_frame_witness :
  (_reserve_agent task_lib sample_state).1 = Some (1%nat, reserve_for "lib.o" local_agent) ∧
  agents (_reserve_agent task_lib sample_state).2 !! 0%nat = agents sample_state !! 0%nat ∧
  agents (_reserve_agent task_lib sample_state).2 !! 2%nat = agents sample_state !! 2%nat.
Proof.
  split; [reflexivity|].
  pose proof (proj1 (reserve_agent_frame task_lib sample_state)) as H.
  split; apply H; discriminate.
Defined.

(** ** Failure resolution *)

Lemma execute_keeps_plan (ninja_build : string → string → RunResult) (t0 t1 : Z)
    (task : BuildTask) (agent : BuildAgent) :
  let r := _execute_task_on_agent ninja_build t0 t1 task agent in
  task_target r.2 = task_target task ∧
  task_priority r.2 = task_priority task ∧
  task_dependencies r.2 = task_dependencies task ∧
  task_status r.2 = (if r.1 then "completed" else "failed").
Proof.
  unfold _execute_task_on_agent. simpl.
  destruct (decide _); [|done].
  destruct (ninja_build _ _) as [rc|]; [|done].
  simpl. by destruct (bool_decide (rc = 0)).
Qed.

(** C4, as the code has it. Let a task of priority p be executed on the
    agent reserved in slot i. Whether the execution succeeds or fails, the
    agent is released: it stays in its slot with status idle and no current
    task, and no other slot changes. If the execution fails, the task is
    appended to the pending list with priority floor(p/2) and its status is
    left at failed (it is not set back to pending); the completed list is
    unchanged. If the re-queued task is executed again and fails again, it is
    appended with priority floor(floor(p/2)/2). *)
Theorem failed_task_requeued
    (ninja_build : string → string → RunResult) (t0 t1 : Z)
    (task : BuildTask) (i : nat) (k : string) (agent : BuildAgent) (o : Orchestrator) :
  agents o !! i = Some (k, agent) →
  match _execute_task_on_agent ninja_build t0 t1 task agent with
  | (success, task') =>
      let o' := resolve success i task' o in
      agents o' !! i = Some (k, release agent) ∧
      agent_status (release agent) = "idle" ∧
      agent_current_task (release agent) = None ∧
      (∀ j, j ≠ i → agents o' !! j = agents o !! j) ∧
      if success then
        build_tasks o' = build_tasks o ∧
        completed_tasks o' = completed_tasks o ++ [task'] ∧
        task_status task' = "completed"
      else
        ∃ requeued,
          build_tasks o' = build_tasks o ++ [requeued] ∧
          completed_tasks o' = completed_tasks o ∧
          task_target requeued = task_target task ∧
          task_dependencies requeued = task_dependencies task ∧
          task_priority requeued = task_priority task / 2 ∧
          task_status requeued = "failed" ∧
          ∀ ninja_build2 t2 t3 agent2 i2 o2,
            (_execute_task_on_agent ninja_build2 t2 t3 requeued agent2).1 = false →
            ∃ requeued2,
              build_tasks
                (resolve false i2
                   (_execute_task_on_agent ninja_build2 t2 t3 requeued agent2).2 o2)
              = build_tasks o2 ++ [requeued2] ∧
              task_priority requeued2 = task_priority task / 2 / 2 ∧
              task_status requeued2 = "failed"
  end.
Proof.
  intros Hi.
  pose proof (execute_keeps_plan ninja_build t0 t1 task agent) as (Ht & Hp & Hd & Hs).
  destruct (_execute_task_on_agent ninja_build t0 t1 task agent) as [success task'].
  simpl in *. unfold resolve, update_slot.
  assert (Hrel : alter (λ kv : string * BuildAgent, (kv.1, release kv.2)) i (agents o) !! i
                 = Some (k, release agent)) by (by rewrite list_lookup_alter_eq, Hi).
  assert (Hframe : ∀ j, j ≠ i →
            alter (λ kv : string * BuildAgent, (kv.1, release kv.2)) i (agents o) !! j
            = agents o !! j) by (intros j Hj; by apply list_lookup_alter_ne).
  destruct success; simpl.
  - by split_and!.
  - split_and!; try done.
    eexists. split_and!; try done; simpl; try done.
    + by rewrite Hp.
    + intros ninja_build2 t2 t3 agent2 i2 o2 Hfail.
      pose proof (execute_keeps_plan ninja_build2 t2 t3
                    (set_task_priority (task_priority task' / 2) task') agent2)
        as (_ & Hp2 & _ & Hs2).
      rewrite Hfail in Hs2. simpl in Hp2, Hs2.
      eexists. split; [reflexivity|]. simpl. split; [by rewrite Hp2, Hp|done].
Qed.

Lemma failed_task_requeued_witness :
  agents reserved_state !! 0%nat
    = Some ("buildbox-local", reserve_for "lib.o" local_agent) ∧
  agents (resolve false 0
            (_execute_task_on_agent failing_build 200 201 task_lib
               (reserve_for "lib.o" local_agent)).2 reserved_state) !! 0%nat
    = Some ("buildbox-local", release (reserve_for "lib.o" local_agent)).
Proof.
  split; [reflexivity|].
  exact (proj1 (failed_task_requeued failing_build 200 201 task_lib 0
                  "buildbox-local" (reserve_for "lib.o" local_agent)
                  reserved_state eq_refl)).
Defined.

(** C4 as first stated fails: after a failed execution the re-queued task
    has half the priority, and its status is failed, not pending. *)
Lemma failed_task_status_not_pending :
  build_tasks (_task_executor_iteration failing_build 200 201 lone_state)
    = [mkTask "lib.o" "build" 3 [] (Some "buildbox-local") "failed" (Some 200) (Some 201)] ∧
  ¬ (∀ t, t ∈ build_tasks (_task_executor_iteration failing_build 200 201 lone_state) →
          task_status t = "pending").
Proof.
  split; [reflexivity|].
  intros H. specialize (H _ (list_elem_of_here _ _)). discriminate H.
Qed.

(** ** Heartbeat monitor *)

(** C7, as the code has it. One iteration of the monitor at clock reading
    now keeps every agent in its slot under its key, and: an agent with
    now − last_seen at most 3 × heartbeat_interval is left entirely
    unchanged, the local agent included (its last_seen is not refreshed);
    a stale agent on localhost has its last_seen set to now and nothing
    else, so its status is never changed by the monitor; a stale agent on
    any other host has its status set to unavailable and nothing else. *)
Theorem heartbeat_iteration_spec (now : Z) (o : Orchestrator) (j : nat) (k : string)
    (a : BuildAgent) :
  agents o !! j = Some (k, a) →
  ∃ a', agents (_agent_heartbeat_monitor_iteration now o) !! j = Some (k, a') ∧
    (now - agent_last_seen a ≤ heartbeat_interval o * 3 → a' = a) ∧
    (heartbeat_interval o * 3 < now - agent_last_seen a →
       (agent_host a = "localhost" →
          a' = set_agent_last_seen now a ∧ agent_last_seen a' = now ∧
          agent_status a' = agent_status a) ∧
       (agent_host a ≠ "localhost" →
          a' = set_agent_status "unavailable" a ∧ agent_status a' = "unavailable" ∧
          agent_last_seen a' = agent_last_seen a)) ∧
    (agent_host a = "localhost" → agent_status a' = agent_status a).
Proof.
  intros Hj. exists (heartbeat_check (heartbeat_interval o) now a).
  split.
  - unfold _agent_heartbeat_monitor_iteration. simpl.
    by rewrite list_lookup_fmap, Hj.
  - unfold heartbeat_check, stale.
    destruct (Z.ltb_spec (heartbeat_interval o * 3) (now - agent_last_seen a));
      destruct (decide (agent_host a = "localhost")); simpl;
      split_and!; try done; try lia.
Qed.

Lemma heartbeat_iteration_spec_witness :
  agents fresh_state !! 1%nat = Some ("farm-1", remote_agent) ∧
  agents (_agent_heartbeat_monitor_iteration 116 fresh_state) !! 1%nat
    = Some ("farm-1", set_agent_status "unavailable" remote_agent).
Proof.
  split; [reflexivity|].
  destruct (heartbeat_iteration_spec 116 fresh_state 1 "farm-1" remote_agent eq_refl)
    as (a' & Ha' & _ & Hstale & _).
  rewrite Ha'. f_equal. f_equal.
  apply Hstale; [reflexivity|discriminate].
Defined.

(** C7 as first stated fails: the local agent was seen at 100, the monitor
    runs at 101 with an interval of 5, and the local agent's last_seen is
    still 100 afterwards. *)
Lemma heartbeat_local_not_refreshed :
  agents fresh_state !! 0%nat = Some ("buildbox-local", local_agent) ∧
  agent_host local_agent = "localhost" ∧
  ∃ a', agents (_agent_heartbeat_monitor_iteration 101 fresh_state) !! 0%nat
          = Some ("buildbox-local", a') ∧
        agent_last_seen a' = 100 ∧ agent_last_seen a' ≠ 101.
Proof.
  split; [reflexivity|]. split; [reflexivity|].
  exists local_agent. split; [reflexivity|]. split; [reflexivity|discriminate].
Qed.

(** ** Topological sort *)

Lemma for_each_Ok_mono {A S : Type} (body1 body2 : A → S → Res S) (l : list A) :
  (∀ x s s', body1 x s = Ok s' → body2 x s = Ok s') →
  ∀ s s', for_each body1 l s = Ok s' → for_each body2 l s = Ok s'.
Proof.
  intros Hb. induction l as [|x l IH]; intros s s'; simpl; [done|].
  destruct (body1 x s) as [s1| |] eqn:E; simpl; try done.
  rewrite (Hb _ _ _ E). simpl. apply IH.
Qed.

(** A larger recursion limit does not change a result already reached. *)
Lemma visit_limit_S (graph : gmap string (list string)) (t2t : gmap string BuildTask)
    (warning_frames n : nat) (target : string) (s s' : SortState) :
  visit graph t2t warning_frames n target s = Ok s' →
  visit graph t2t warning_frames (S n) target s = Ok s'.
Proof.
  revert target s s'. induction n as [|n IH]; intros target s s'; [done|].
  intros H. simpl in H. simpl.
  destruct (decide (target ∈ temp_visited s)).
  { destruct (decide (warning_frames ≤ n)%nat); [|done].
    by rewrite decide_True by lia. }
  destruct (decide (target ∈ visited s)); [done|].
  destruct (for_each _ _ _) as [s2| |] eqn:E in H; simpl in H; try done.
  erewrite for_each_Ok_mono; [exact H| |exact E].
  intros x s0 s0'. simpl. destruct (decide (is_Some (t2t !! x))); [|done].
  apply IH.
Qed.

Lemma visit_limit_mono (graph : gmap string (list string)) (t2t : gmap string BuildTask)
    (warning_frames n m : nat) (target : string) (s s' : SortState) :
  (n ≤ m)%nat →
  visit graph t2t warning_frames n target s = Ok s' →
  visit graph t2t warning_frames m target s = Ok s'.
Proof.
  induction 1 as [|m Hle IH]; [done|]. intros H. by apply visit_limit_S, IH.
Qed.

(** The same for a [KeyError]: whatever a call gives other than a
    [RecursionError], it gives at every larger limit. *)
Lemma for_each_settled_mono {A S : Type} (body1 body2 : A → S → Res S) (l : list A) :
  (∀ x s, body1 x s ≠ RecursionError → body2 x s = body1 x s) →
  ∀ s, for_each body1 l s ≠ RecursionError → for_each body2 l s = for_each body1 l s.
Proof.
  intros Hb. induction l as [|x l IH]; intros s; simpl; [done|].
  intros H. rewrite Hb; [|by destruct (body1 x s)].
  destruct (body1 x s) as [s1| |]; simpl; [by apply IH|done..].
Qed.

Lemma visit_settled_S (graph : gmap string (list string)) (t2t : gmap string BuildTask)
    (warning_frames n : nat) (target : string) (s : SortState) :
  visit graph t2t warning_frames n target s ≠ RecursionError →
  visit graph t2t warning_frames (S n) target s = visit graph t2t warning_frames n target s.
Proof.
  revert target s. induction n as [|n IH]; intros target s; [done|].
  intros H. remember (S n) as m eqn:Hm. simpl. subst m. simpl in H. simpl.
  destruct (decide (target ∈ temp_visited s)).
  { destruct (decide (warning_frames ≤ n)%nat); [|done].
    by rewrite decide_True by lia. }
  destruct (decide (target ∈ visited s)); [done|].
  rewrite (for_each_settled_mono
             (λ dep s, if decide (is_Some (t2t !! dep))
                       then visit graph t2t warning_frames n dep s else Ok s)).
  - done.
  - intros x s0. simpl. destruct (decide (is_Some (t2t !! x))); [|done]. apply IH.
  - by destruct (for_each _ _ _).
Qed.

Lemma visit_settled_mono (graph : gmap string (list string)) (t2t : gmap string BuildTask)
    (warning_frames n m : nat) (target : string) (s : SortState) :
  (n ≤ m)%nat →
  visit graph t2t warning_frames n target s ≠ RecursionError →
  visit graph t2t warning_frames m target s = visit graph t2t warning_frames n target s.
Proof.
  induction 1 as [|m Hle IH]; [done|]. intros H.
  rewrite visit_settled_S; [by apply IH|]. by rewrite IH.
Qed.

Lemma visit_all_settled_mono (graph : gmap string (list string))
    (t2t : gmap string BuildTask) (warning_frames n m : nat) (tasks : list BuildTask)
    (s : SortState) :
  (n ≤ m)%nat →
  visit_all graph t2t warning_frames n tasks s ≠ RecursionError →
  visit_all graph t2t warning_frames m tasks s = visit_all graph t2t warning_frames n tasks s.
Proof.
  intros Hle. unfold visit_all. apply for_each_settled_mono.
  intros t s0. cbv beta. destruct (decide _); [done|]. by apply visit_settled_mono.
Qed.

Section VisitFacts.
Context (graph : gmap string (list string)) (t2t : gmap string BuildTask).
Context (warning_frames : nat).
Hypothesis t2t_keys : ∀ k t, t2t !! k = Some t → task_target t = k.

Lemma visit_post_refl (s : SortState) : sort_inv t2t s → visit_post t2t s s.
Proof. intros Hs. split_and!; [done..|]. intros x Hx. by left. Qed.

Lemma visit_post_trans (s1 s2 s3 : SortState) :
  visit_post t2t s1 s2 → visit_post t2t s2 s3 → visit_post t2t s1 s3.
Proof.
  intros (_ & Ht1 & Hv1 & Hn1) (Hi & Ht2 & Hv2 & Hn2).
  split_and!; [done|congruence|set_solver|].
  intros x Hx. destruct (Hn2 x Hx) as [H|H]; [by apply Hn1|].
  right. by rewrite <- Ht1.
Qed.

(** The loop over the dependencies, given what one call does. *)
Lemma deps_loop_ok (n : nat) (deps : list string) :
  (∀ dep s, dep ∈ dom t2t → sort_inv t2t s → temp_visited s ⊆ dom t2t →
     (size (dom t2t) + warning_frames < n + size (temp_visited s))%nat →
     ∃ s', visit graph t2t warning_frames n dep s = Ok s' ∧ visit_post t2t s s') →
  ∀ s, sort_inv t2t s → temp_visited s ⊆ dom t2t →
    (size (dom t2t) + warning_frames < n + size (temp_visited s))%nat →
    ∃ s', for_each (λ dep s, if decide (is_Some (t2t !! dep))
                            then visit graph t2t warning_frames n dep s else Ok s) deps s
          = Ok s' ∧
          visit_post t2t s s'.
Proof.
  intros Hvisit. induction deps as [|dep deps IH]; intros s Hinv Htemp Hframes; simpl.
  - exists s. split; [done|]. by apply visit_post_refl.
  - destruct (decide (is_Some (t2t !! dep))) as [Hdep|Hdep]; simpl.
    + destruct (Hvisit dep s) as (s1 & -> & Hpost); [by apply elem_of_dom|done..|].
      simpl. pose proof Hpost as (Hinv1 & Ht1 & _).
      destruct (IH s1) as (s2 & -> & Hpost2); [done|by rewrite Ht1|by rewrite Ht1|].
      exists s2. split; [done|]. by eapply visit_post_trans.
    + by apply IH.
Qed.

(** [visit] returns, without a [KeyError], whenever the limit exceeds the
    number of known targets that are not in progress. *)
Lemma visit_ok (n : nat) :
  ∀ target s, target ∈ dom t2t → sort_inv t2t s → temp_visited s ⊆ dom t2t →
    (size (dom t2t) + warning_frames < n + size (temp_visited s))%nat →
    ∃ s', visit graph t2t warning_frames n target s = Ok s' ∧ visit_post t2t s s' ∧
          (target ∈ temp_visited s ∨ target ∈ visited s').
Proof.
  induction n as [|n IH]; intros target s Hk Hinv Htemp Hframes.
  { apply subseteq_size in Htemp. lia. }
  simpl.
  destruct (decide (target ∈ temp_visited s)) as [Hin|Hnotin].
  { rewrite decide_True by (apply subseteq_size in Htemp; lia).
    exists s. split; [done|]. split; [by apply visit_post_refl|by left]. }
  destruct (decide (target ∈ visited s)) as [Hvis|Hnvis].
  { exists s. split; [done|]. split; [by apply visit_post_refl|by right]. }
  set (s1 := mkSort (visited s) ({[target]} ∪ temp_visited s) (result s)).
  assert (Hsize : size (temp_visited s1) = S (size (temp_visited s))).
  { simpl. rewrite size_union by set_solver. by rewrite size_singleton. }
  destruct (deps_loop_ok n (default [] (graph !! target))) with (s := s1)
    as (s2 & -> & Hinv2 & Ht2 & Hv2 & Hn2).
  - intros dep s0 Hdep Hinv0 Htemp0 Hframes0.
    destruct (IH dep s0) as (s' & Hs' & Hpost & _); eauto.
  - done.
  - simpl. set_solver.
  - lia.
  - simpl. rewrite decide_True by (rewrite Ht2; simpl; set_solver).
    eexists. split; [done|].
    apply elem_of_dom in Hk as [task Htask]. rewrite Htask.
    pose proof (t2t_keys _ _ Htask) as Htarget.
    destruct Hinv2 as (Hd2 & Hnd2 & Hiff2 & Hres2).
    assert (Hfresh : target ∉ visited s2).
    { intros Hx. destruct (Hn2 _ Hx) as [H|H]; [done|]. simpl in H. set_solver. }
    split; [|right; simpl; set_solver].
    split_and!; simpl.
    + split_and!; simpl.
      * apply elem_of_dom_2 in Htask. set_solver.
      * rewrite fmap_app. simpl. rewrite Htarget.
        apply NoDup_app. split; [done|]. split; [|apply NoDup_singleton].
        intros x Hx ->%list_elem_of_singleton. by apply Hfresh, Hiff2.
      * intros x. rewrite fmap_app, elem_of_app, Hiff2. simpl.
        rewrite list_elem_of_singleton, Htarget. set_solver.
      * intros t [Ht| ->%list_elem_of_singleton]%elem_of_app; [by apply Hres2|].
        by rewrite Htarget.
    + rewrite Ht2. simpl. set_solver.
    + simpl in Hv2. set_solver.
    + intros x [->%elem_of_singleton|Hx]%elem_of_union; [by right|].
      destruct (Hn2 _ Hx) as [H|H]; [by left|]. right. simpl in H. set_solver.
Qed.

(** The loop over the tasks. *)
Lemma visit_all_ok (n : nat) (tasks : list BuildTask) :
  (size (dom t2t) + warning_frames < n)%nat →
  (∀ t, t ∈ tasks → task_target t ∈ dom t2t) →
  ∀ s, sort_inv t2t s → temp_visited s = ∅ →
    ∃ s', visit_all graph t2t warning_frames n tasks s = Ok s' ∧ sort_inv t2t s' ∧
          temp_visited s' = ∅ ∧ visited s ⊆ visited s' ∧
          (∀ t, t ∈ tasks → task_target t ∈ visited s').
Proof.
  intros Hframes. unfold visit_all.
  induction tasks as [|t tasks IH]; intros Hknown s Hinv Htemp; simpl.
  - exists s. split_and!; try done. intros t Ht. by apply elem_of_nil in Ht.
  - assert (Hstep : ∃ s1, (if decide (task_target t ∈ visited s) then Ok s
                           else visit graph t2t warning_frames n (task_target t) s) = Ok s1 ∧
                          sort_inv t2t s1 ∧ temp_visited s1 = ∅ ∧
                          visited s ⊆ visited s1 ∧ task_target t ∈ visited s1).
    { destruct (decide (task_target t ∈ visited s)) as [Hv|Hv].
      - exists s. by split_and!.
      - destruct (visit_ok n (task_target t) s) as (s1 & Hs1 & Hpost & Hdone).
        + apply Hknown. by left.
        + done.
        + rewrite Htemp. set_solver.
        + rewrite Htemp, size_empty. lia.
        + destruct Hpost as (Hinv1 & Ht1 & Hv1 & _).
          exists s1. split_and!; try done; [congruence|].
          destruct Hdone as [H|H]; [|done]. rewrite Htemp in H. set_solver. }
    destruct Hstep as (s1 & -> & Hinv1 & Ht1 & Hv1 & Hin1). simpl.
    destruct (IH (λ u Hu, Hknown u (list_elem_of_further _ _ _ Hu)) s1 Hinv1 Ht1)
      as (s2 & Hs2 & Hinv2 & Ht2 & Hv2 & Hall).
    exists s2. split_and!; try done; [set_solver|].
    intros u [->|Hu]%elem_of_cons; [set_solver|by apply Hall].
Qed.

End VisitFacts.

(** [target_to_task]: every key is the target of its task, every task's
    target is a key, and with distinct targets each task is the one under
    its target. *)
Lemma target_to_task_fold_lookup (l : list BuildTask) (m : gmap string BuildTask)
    (k : string) (t : BuildTask) :
  foldl (λ m t, <[task_target t := t]> m) m l !! k = Some t →
  (t ∈ l ∧ task_target t = k) ∨ m !! k = Some t.
Proof.
  revert m. induction l as [|u l IH]; intros m; simpl; [by right|].
  intros [[Hin Hk]|Hm]%IH.
  - left. split; [by right|done].
  - destruct (decide (task_target u = k)) as [<-|Hne].
    + rewrite lookup_insert_eq in Hm. injection Hm as ->. left. split; [by left|done].
    + rewrite lookup_insert_ne in Hm by done. by right.
Qed.

Lemma target_to_task_fold_keep (l : list BuildTask) (m : gmap string BuildTask)
    (k : string) :
  k ∉ task_target <$> l →
  foldl (λ m t, <[task_target t := t]> m) m l !! k = m !! k.
Proof.
  revert m. induction l as [|u l IH]; intros m; simpl; [done|].
  intros [Hne Hk]%not_elem_of_cons. rewrite IH by done.
  by rewrite lookup_insert_ne.
Qed.

Lemma target_to_task_fold_dom (l : list BuildTask) (m : gmap string BuildTask) :
  dom (foldl (λ m t, <[task_target t := t]> m) m l)
  = dom m ∪ list_to_set (task_target <$> l).
Proof.
  revert m. induction l as [|u l IH]; intros m; simpl; [set_solver|].
  rewrite IH, dom_insert_L. set_solver.
Qed.

Lemma target_to_task_keys (tasks : list BuildTask) (k : string) (t : BuildTask) :
  target_to_task_of tasks !! k = Some t → t ∈ tasks ∧ task_target t = k.
Proof.
  intros [H|H]%target_to_task_fold_lookup; [done|]. by rewrite lookup_empty in H.
Qed.

Lemma target_to_task_dom (tasks : list BuildTask) :
  dom (target_to_task_of tasks) = list_to_set (task_target <$> tasks).
Proof. unfold target_to_task_of. rewrite target_to_task_fold_dom. set_solver. Qed.

Lemma target_to_task_unique (tasks : list BuildTask) (t : BuildTask) :
  NoDup (task_target <$> tasks) → t ∈ tasks →
  target_to_task_of tasks !! task_target t = Some t.
Proof.
  unfold target_to_task_of. generalize (∅ : gmap string BuildTask).
  induction tasks as [|u l IH]; intros m Hnd Ht; simpl.
  { by apply elem_of_nil in Ht. }
  rewrite fmap_cons in Hnd. apply NoDup_cons in Hnd as [Hu Hnd].
  apply elem_of_cons in Ht as [->|Ht]; [|by apply IH].
  rewrite target_to_task_fold_keep by done. apply lookup_insert_eq.
Qed.

Lemma size_list_to_set_le (l : list string) :
  (size (list_to_set l : gset string) ≤ length l)%nat.
Proof.
  induction l as [|x l IH]; [by vm_compute|]. simpl.
  destruct (decide (x ∈ (list_to_set l : gset string))) as [Hx|Hx].
  - replace ({[x]} ∪ list_to_set l) with (list_to_set l : gset string) by set_solver. lia.
  - rewrite size_union, size_singleton by set_solver. lia.
Qed.

Lemma filter_absent_image {A : Type} (f : A → string) (l : list A) (x : string) :
  x ∉ f <$> l → filter (λ u, f u = x) l = [].
Proof.
  induction l as [|u l IH]; [done|].
  rewrite fmap_cons, not_elem_of_cons, filter_cons. intros [Hne Hx].
  rewrite decide_False by done. by apply IH.
Qed.

(** With distinct images, exactly one element has a given image. *)
Lemma filter_unique_image {A : Type} (f : A → string) (l : list A) (x : string) :
  NoDup (f <$> l) → x ∈ f <$> l → length (filter (λ u, f u = x) l) = 1%nat.
Proof.
  induction l as [|u l IH]; [by intros _ ?%elem_of_nil|].
  rewrite fmap_cons, NoDup_cons, elem_of_cons, filter_cons. intros [Hu Hnd] Hx.
  case_decide as Hfu.
  - subst x. simpl. by rewrite filter_absent_image.
  - destruct Hx as [->|Hx]; [done|]. by apply IH.
Qed.

(** A limit that leaves room for the pending tasks, one more call and a
    warning is enough for [visit_all], and what it leaves is the known
    targets, each visited and listed once. *)
Lemma topological_sort_state (warning_frames frames : nat) (o : Orchestrator) :
  (length (build_tasks o) + warning_frames < frames)%nat →
  ∃ s, visit_all (build_graph o) (target_to_task_of (build_tasks o)) warning_frames frames
                 (build_tasks o) (mkSort ∅ ∅ []) = Ok s ∧
       sort_inv (target_to_task_of (build_tasks o)) s ∧
       visited s = list_to_set (task_target <$> build_tasks o).
Proof.
  intros Hframes.
  destruct (visit_all_ok (build_graph o) (target_to_task_of (build_tasks o)) warning_frames
              (λ k t H, proj2 (target_to_task_keys _ k t H)) frames (build_tasks o))
    with (s := mkSort ∅ ∅ []) as (s & Hs & Hinv & _ & _ & Hall).
  - rewrite target_to_task_dom.
    pose proof (size_list_to_set_le (task_target <$> build_tasks o)) as Hle.
    rewrite length_fmap in Hle. lia.
  - intros t Ht. rewrite target_to_task_dom, elem_of_list_to_set.
    by apply list_elem_of_fmap_2.
  - split_and!; simpl; [set_solver|constructor|set_solver|set_solver].
  - done.
  - exists s. split_and!; [done..|].
    destruct Hinv as (Hdom & _). rewrite target_to_task_dom in Hdom.
    apply set_eq. intros x. split; [set_solver|].
    rewrite elem_of_list_to_set. intros (t & -> & Ht)%list_elem_of_fmap. by apply Hall.
Qed.

(** A larger recursion limit does not change what [_topological_sort]
    gives, unless that was a [RecursionError]. *)
Lemma topological_sort_limit_mono (warning_frames n m : nat) (o : Orchestrator)
    (r : Res (list BuildTask)) :
  (n ≤ m)%nat →
  _topological_sort warning_frames n o = r → r ≠ RecursionError →
  _topological_sort warning_frames m o = r.
Proof.
  intros Hle <- Hr. unfold _topological_sort in *.
  rewrite (visit_all_settled_mono _ _ _ n m); [done..|].
  by destruct (visit_all _ _ _ n _ _).
Qed.

(** With room for one more call than there are pending tasks, and for a
    warning, the sort returns a list. *)
Lemma topological_sort_returns (warning_frames recursion_limit : nat) (o : Orchestrator) :
  (length (build_tasks o) + warning_frames < recursion_limit)%nat →
  ∃ r, _topological_sort warning_frames recursion_limit o = Ok r.
Proof.
  intros Hlimit.
  destruct (topological_sort_state warning_frames recursion_limit o) as (s & Hs & _); [lia|].
  exists (result s). unfold _topological_sort. by rewrite Hs.
Qed.

(** The sort raises no [KeyError], and a [RecursionError] only when the
    limit does not leave that room. *)
Lemma topological_sort_raises (warning_frames recursion_limit : nat) (o : Orchestrator) :
  match _topological_sort warning_frames recursion_limit o with
  | Ok _ => True
  | KeyError => False
  | RecursionError => (recursion_limit ≤ length (build_tasks o) + warning_frames)%nat
  end.
Proof.
  destruct (_topological_sort warning_frames recursion_limit o) as [r| |] eqn:Hr; [done| |].
  - destruct (topological_sort_returns warning_frames
                (recursion_limit `max` S (length (build_tasks o) + warning_frames)) o)
      as (r & Hbig); [lia|].
    rewrite (topological_sort_limit_mono _ recursion_limit _ o KeyError) in Hbig;
      [done|lia|done|done].
  - destruct (decide (recursion_limit ≤ length (build_tasks o) + warning_frames)%nat)
      as [|Hgt]; [done|].
    destruct (topological_sort_returns warning_frames recursion_limit o) as (r & Hbig);
      [lia|].
    by rewrite Hr in Hbig.
Qed.

(** The list of the topological sort, whenever it returns one: one task
    for each pending target, each the last pending task of its target. *)
Lemma topological_sort_result (warning_frames recursion_limit : nat) (o : Orchestrator)
    (r : list BuildTask) :
  _topological_sort warning_frames recursion_limit o = Ok r →
  NoDup (task_target <$> r) ∧
  (∀ x, x ∈ task_target <$> r ↔ x ∈ task_target <$> build_tasks o) ∧
  (∀ t, t ∈ r → target_to_task_of (build_tasks o) !! task_target t = Some t).
Proof.
  intros Hr.
  set (big := (recursion_limit `max` S (length (build_tasks o) + warning_frames))%nat).
  apply (topological_sort_limit_mono _ _ big) in Hr; [|lia|done].
  destruct (topological_sort_state warning_frames big o) as (s & Hs & Hinv & Hvis); [lia|].
  unfold _topological_sort in Hr. rewrite Hs in Hr. simpl in Hr. injection Hr as <-.
  destruct Hinv as (_ & Hnd & Hiff & Hres).
  split_and!; try done.
  intros x. by rewrite Hiff, Hvis, elem_of_list_to_set.
Qed.

(** What a traversal gives when a warning takes no frame, it gives when a
    warning takes [warning_frames] and the limit is raised by as much. *)
Lemma visit_with_warning (graph : gmap string (list string)) (t2t : gmap string BuildTask)
    (warning_frames n : nat) (target : string) (s s' : SortState) :
  visit graph t2t 0 n target s = Ok s' →
  visit graph t2t warning_frames (n + warning_frames) target s = Ok s'.
Proof.
  revert target s s'. induction n as [|n IH]; intros target s s'; [done|].
  intros H. simpl in H. simpl.
  destruct (decide (target ∈ temp_visited s)).
  { by rewrite decide_True by lia. }
  destruct (decide (target ∈ visited s)); [done|].
  destruct (for_each _ _ _) as [s2| |] eqn:E in H; simpl in H; try done.
  erewrite for_each_Ok_mono; [exact H| |exact E].
  intros x s0 s0'. simpl. destruct (decide (is_Some (t2t !! x))); [|done].
  apply IH.
Qed.

Lemma topological_sort_with_warning (warning_frames n m : nat) (o : Orchestrator)
    (r : list BuildTask) :
  _topological_sort 0 n o = Ok r → (n + warning_frames ≤ m)%nat →
  _topological_sort warning_frames m o = Ok r.
Proof.
  intros Hr Hle. apply (topological_sort_limit_mono _ (n + warning_frames)); [done| |done].
  unfold _topological_sort, visit_all in *.
  destruct (for_each _ _ _) as [s| |] eqn:Hs in Hr; simpl in Hr; try done.
  erewrite for_each_Ok_mono; [exact Hr| |exact Hs].
  intros t s0 s0'. cbv beta. destruct (decide _); [done|]. apply visit_with_warning.
Qed.

(** The cycle A -> B -> A is sorted as B, A once the limit leaves room for
    the three nested calls and the warning of the third. *)
Lemma topological_sort_cycle (warning_frames n : nat) :
  _topological_sort warning_frames (3 + warning_frames + n) cycle_state
  = Ok [task_B; task_A].
Proof. apply (topological_sort_with_warning _ 3); [by vm_compute|lia]. Qed.

(** C8. [recursion_limit] is the number of nested calls that the
    interpreter still allows inside the sort, and [warning_frames] the
    number that one [logger.warning] takes. On every state, whatever the
    graph, the sort raises no [KeyError] and does not recurse without end:
    it either returns a list or, only when the limit is at most the number
    of pending tasks plus the frames of a warning, raises a
    [RecursionError]. A list once returned is returned at every larger
    limit; every pending task's target is the target of exactly one task of
    that list, every task of the list is a pending task, and when the
    pending targets are distinct the list is a rearrangement of the pending
    list. With a limit above the number of pending tasks plus the frames of
    a warning the sort returns a list. A target met again while in progress
    ends the call at once with the state untouched, when the warning fits.
    On the cycle A -> B -> A the order is B, A, at every limit that leaves
    room for three nested calls and a warning. *)
Theorem topological_sort_total_once (warning_frames recursion_limit : nat)
    (o : Orchestrator) :
  match _topological_sort warning_frames recursion_limit o with
  | Ok r =>
      (∀ limit, (recursion_limit ≤ limit)%nat →
         _topological_sort warning_frames limit o = Ok r) ∧
      (∀ t, t ∈ build_tasks o →
         length (filter (λ u, task_target u = task_target t) r) = 1%nat) ∧
      (∀ u, u ∈ r → u ∈ build_tasks o) ∧
      (NoDup (task_target <$> build_tasks o) → r ≡ₚ build_tasks o)
  | RecursionError => (recursion_limit ≤ length (build_tasks o) + warning_frames)%nat
  | KeyError => False
  end ∧
  ((length (build_tasks o) + warning_frames < recursion_limit)%nat →
     ∃ r, _topological_sort warning_frames recursion_limit o = Ok r) ∧
  (∀ t2t frames target s, target ∈ temp_visited s →
     visit (build_graph o) t2t warning_frames (S frames) target s
     = if decide (warning_frames ≤ frames)%nat then Ok s else RecursionError) ∧
  (∀ n, _topological_sort warning_frames (3 + warning_frames + n) cycle_state
        = Ok [task_B; task_A]).
Proof.
  split_and!.
  - pose proof (topological_sort_raises warning_frames recursion_limit o) as Hraises.
    destruct (_topological_sort warning_frames recursion_limit o) as [r| |] eqn:Hr;
      [|done..].
    destruct (topological_sort_result _ _ _ _ Hr) as (Hnd & Hiff & Hres).
    split_and!.
    + intros limit Hlimit. by apply (topological_sort_limit_mono _ recursion_limit).
    + intros t Ht. apply filter_unique_image; [done|].
      rewrite Hiff. by apply list_elem_of_fmap_2.
    + intros u Hu. by apply Hres, target_to_task_keys in Hu as [Hu _].
    + intros Hdistinct. apply NoDup_Permutation.
      * by eapply NoDup_fmap_1.
      * by eapply NoDup_fmap_1.
      * intros t. split.
        -- intros Hu. by apply Hres, target_to_task_keys in Hu as [Hu _].
        -- intros Ht.
           assert (Hin : task_target t ∈ task_target <$> r).
           { rewrite Hiff. by apply list_elem_of_fmap_2. }
           apply list_elem_of_fmap in Hin as (u & Htu & Hu).
           pose proof (Hres u Hu) as Hlook. rewrite <- Htu in Hlook.
           rewrite (target_to_task_unique _ t Hdistinct Ht) in Hlook.
           by injection Hlook as ->.
  - apply topological_sort_returns.
  - intros t2t frames target s0 Hin. simpl. by rewrite decide_True.
  - apply topological_sort_cycle.
Qed.

Lemma topological_sort_total_once_witness :
  (length (build_tasks cycle_state) + 10 < 1000)%nat ∧
  NoDup (task_target <$> build_tasks cycle_state) ∧
  ∃ r, _topological_sort 10 1000 cycle_state = Ok r ∧ r ≡ₚ build_tasks cycle_state.
Proof.
  assert (Hroom : (length (build_tasks cycle_state) + 10 < 1000)%nat) by (simpl; lia).
  assert (Hnd : NoDup (task_target <$> build_tasks cycle_state)).
  { simpl. apply NoDup_cons. split; [|apply NoDup_singleton].
    intros H%list_elem_of_singleton. discriminate H. }
  split; [exact Hroom|]. split; [exact Hnd|].
  pose proof (topological_sort_total_once 10 1000 cycle_state) as (Hcases & Hreturns & _).
  destruct (Hreturns Hroom) as (r & Hr). rewrite Hr in Hcases.
  destruct Hcases as (_ & _ & _ & Hperm).
  exists r. split; [exact Hr|exact (Hperm Hnd)].
Defined.

(** The spec's sentence, read without a limit on the recursion, against the
    code: on a chain of 1001 tasks, each depending on the next, with room
    for 1000 nested calls, the sort raises a [RecursionError], although the
    chain has no cycle and its targets are distinct; no warning is logged
    on the way, so this is so whatever a warning takes. With room for 1002
    calls, and a warning that takes none, the sort returns. *)
Lemma topological_sort_recursion_error :
  length (build_tasks (chain_state 1001)) = 1001%nat ∧
  build_graph (chain_state 1001) = graph_of (build_tasks (chain_state 1001)) ∧
  (∀ warning_frames,
     _topological_sort warning_frames 1000 (chain_state 1001) = RecursionError) ∧
  (∃ r, _topological_sort 0 1002 (chain_state 1001) = Ok r).
Proof.
  split; [vm_compute; reflexivity|]. split; [reflexivity|].
  split; [intros warning_frames; vm_compute; reflexivity|].
  apply topological_sort_returns. vm_compute. lia.
Qed.

(** ** Dependencies on unknown targets *)

(** The traversal skips a dependency that is the target of no task. *)
Lemma visit_skips_unknown_dependency (graph : gmap string (list string))
    (t2t : gmap string BuildTask) (warning_frames frames : nat) (dep : string)
    (deps : list string)
    (s : SortState) :
  t2t !! dep = None →
  for_each (λ dep s, if decide (is_Some (t2t !! dep))
                     then visit graph t2t warning_frames frames dep s else Ok s) (dep :: deps) s
  = for_each (λ dep s, if decide (is_Some (t2t !! dep))
                       then visit graph t2t warning_frames frames dep s else Ok s) deps s.
Proof.
  intros Hdep. simpl. rewrite decide_False; [done|].
  rewrite Hdep. by intros [? ?].
Qed.

(** The scan never returns a task one of whose dependencies is the target
    of no completed task, whether or not any task has that target. *)
Lemma get_next_task_blocked (o : Orchestrator) (t : BuildTask) (dep : string) :
  dep ∈ task_dependencies t →
  (∀ c, c ∈ completed_tasks o → task_target c ≠ dep) →
  (_get_next_task o).1 ≠ Some t.
Proof.
  intros Hdep Hnone. unfold _get_next_task.
  destruct (list_find _ _) as [[i u]|] eqn:Hfind; simpl; [|done].
  intros [= ->]. apply scan_found in Hfind as (_ & Hr & _).
  destruct (Hr dep Hdep) as (c & Hc & Htc). by apply (Hnone c).
Qed.

(** C2, on the code. The only pending task depends on main.c, which is
    the target of no task, and nothing it depends on is a known target;
    the completed list is empty. The scan returns nothing: the unknown
    dependency blocks the task. The topological sort, on the same state
    and at every recursion limit that allows one call of [visit], skips
    that dependency and lists the task (it logs no warning on the way). *)
Theorem unknown_dependency_blocks_task :
  build_tasks unknown_dep_state = [task_src] ∧
  task_dependencies task_src = ["main.c"] ∧
  target_to_task_of (build_tasks unknown_dep_state) !! "main.c" = None ∧
  completed_tasks unknown_dep_state = [] ∧
  (_get_next_task unknown_dep_state).1 = None ∧
  (∀ warning_frames n,
     _topological_sort warning_frames (1 + n) unknown_dep_state = Ok [task_src]).
Proof. split_and!; by vm_compute. Qed.

(** ** Priority plan *)

(** C3, on the code. The only task, gen, lists gen among its dependencies.
    Its topological rank is 0 and no other task depends on it, so r + 10·d
    is 0; the plan gives it priority 10, because the count over the graph
    includes the task's own entry. This is so at every recursion limit that
    allows the two nested calls of [visit] that the sort makes here and the
    warning that the second one logs. *)
Theorem optimize_counts_own_entry :
  build_tasks self_dep_state = [task_self] ∧
  (∀ warning_frames n,
     _topological_sort warning_frames (2 + warning_frames + n) self_dep_state
     = Ok [task_self]) ∧
  other_dependents (build_tasks self_dep_state) "gen" = 0 ∧
  dependents_count (build_graph self_dep_state) "gen" = 1 ∧
  (∀ warning_frames n,
     (build_tasks <$> match optimize_build_plan warning_frames (2 + warning_frames + n)
                              self_dep_state with
                      | Ok o' => Some o'
                      | _ => None
                      end) = Some [set_task_priority 10 task_self]).
Proof.
  assert (Hsort : ∀ warning_frames n,
            _topological_sort warning_frames (2 + warning_frames + n) self_dep_state
            = Ok [task_self]).
  { intros w n. apply (topological_sort_with_warning _ 2); [by vm_compute|lia]. }
  split_and!; [by vm_compute|exact Hsort|by vm_compute|by vm_compute|].
  intros w n. unfold optimize_build_plan. rewrite Hsort. by vm_compute.
Qed.

Lemma graph_of_fold_entries (l : list BuildTask) (g : gmap string (list string)) :
  NoDup (task_target <$> l) →
  (∀ t, t ∈ l → g !! task_target t = None) →
  map_to_list (foldl (λ g t, <[task_target t := task_dependencies t]> g) g l)
  ≡ₚ ((λ t, (task_target t, task_dependencies t)) <$> l) ++ map_to_list g.
Proof.
  revert g. induction l as [|u l IH]; intros g Hnd Hfree; simpl; [done|].
  rewrite fmap_cons in Hnd. apply NoDup_cons in Hnd as [Hu Hnd].
  rewrite IH; [|done|].
  - rewrite map_to_list_insert by (apply Hfree; by left).
    by rewrite Permutation_middle.
  - intros t Ht. rewrite lookup_insert_ne; [apply Hfree; by right|].
    intros Heq. apply Hu. rewrite Heq. by apply list_elem_of_fmap_2.
Qed.

Lemma graph_of_entries (tasks : list BuildTask) :
  NoDup (task_target <$> tasks) →
  map_to_list (graph_of tasks)
  ≡ₚ (λ t, (task_target t, task_dependencies t)) <$> tasks.
Proof.
  intros Hnd. unfold graph_of. rewrite graph_of_fold_entries; [|done|done].
  by rewrite map_to_list_empty, app_nil_r.
Qed.

(** When the targets are distinct and no task lists its own target, the
    count over the graph is the number of other tasks that depend on the
    target. *)
Lemma dependents_count_other (tasks : list BuildTask) (target : string) :
  NoDup (task_target <$> tasks) →
  (∀ t, t ∈ tasks → task_target t ∉ task_dependencies t) →
  dependents_count (graph_of tasks) target = other_dependents tasks target.
Proof.
  intros Hnd Hself. unfold dependents_count, other_dependents. f_equal.
  rewrite (graph_of_entries tasks Hnd). clear Hnd.
  induction tasks as [|u l IH]; [done|].
  rewrite fmap_cons, !filter_cons. simpl.
  assert (Hl : ∀ t, t ∈ l → task_target t ∉ task_dependencies t)
    by (intros t Ht; apply Hself; by right).
  assert (Hu : task_target u ∉ task_dependencies u) by (apply Hself; by left).
  destruct (decide (target ∈ task_dependencies u)) as [Hin|Hout].
  - rewrite decide_True; [simpl; by rewrite IH|].
    split; [|done]. intros Heq. by rewrite Heq in Hu.
  - rewrite decide_False by (by intros [_ ?]). by apply IH.
Qed.

(** What the plan computes, whenever the sort returns a list: the task at
    rank i of the topological order gets priority i + 10 × (number of graph
    entries whose list includes its target), and the new pending list is
    the stable descending sort of the order so re-prioritised. *)
Lemma optimize_build_plan_spec (warning_frames recursion_limit : nat) (o : Orchestrator)
    (r : list BuildTask) :
  _topological_sort warning_frames recursion_limit o = Ok r →
  ∃ o', optimize_build_plan warning_frames recursion_limit o = Ok o' ∧
    build_tasks o' = sort_desc task_priority (assign_priorities (build_graph o) r) ∧
    (∀ (i : nat) t, r !! i = Some t →
       assign_priorities (build_graph o) r !! i
       = Some (set_task_priority
                 (Z.of_nat i + dependents_count (build_graph o) (task_target t) * 10) t)) ∧
    build_tasks o' ≡ₚ assign_priorities (build_graph o) r ∧
    StronglySorted (λ a b, task_priority b ≤ task_priority a) (build_tasks o') ∧
    (∀ p, filter (λ t, task_priority t = p) (build_tasks o')
          = filter (λ t, task_priority t = p) (assign_priorities (build_graph o) r)) ∧
    completed_tasks o' = completed_tasks o ∧ agents o' = agents o ∧
    build_graph o' = build_graph o.
Proof.
  intros Hr. eexists.
  unfold optimize_build_plan. rewrite Hr. simpl. split; [done|]. simpl.
  split_and!; try done.
  - intros i t Hi. unfold assign_priorities. by rewrite list_lookup_imap, Hi.
  - apply sort_desc_perm.
  - apply sort_desc_sorted.
  - intros p. apply sort_desc_stable.
Qed.

(** What [optimize_build_plan] raises is what [_topological_sort] raises. *)
Lemma optimize_build_plan_raises (warning_frames recursion_limit : nat)
    (o : Orchestrator) :
  match optimize_build_plan warning_frames recursion_limit o with
  | Ok _ => ∃ r, _topological_sort warning_frames recursion_limit o = Ok r
  | KeyError => False
  | RecursionError => (recursion_limit ≤ length (build_tasks o) + warning_frames)%nat
  end.
Proof.
  pose proof (topological_sort_raises warning_frames recursion_limit o) as Hraises.
  unfold optimize_build_plan.
  destruct (_topological_sort warning_frames recursion_limit o) as [r| |]; simpl;
    [by exists r|done..].
Qed.

(** X20. The priority formula of the plan, where it holds: on a state whose
    graph is the one recorded for its pending tasks, with distinct targets
    and no task that lists its own target, whenever the plan is made the
    task at rank i of the topological order enters the new pending list with
    priority i + 10 × (number of other tasks that depend on its target). The
    plan is made unless the sort raises a [RecursionError], which takes a
    recursion limit of at most the number of pending tasks plus the frames
    of a warning. *)
Lemma optimize_build_plan_formula (warning_frames recursion_limit : nat)
    (o : Orchestrator) :
  build_graph o = graph_of (build_tasks o) →
  NoDup (task_target <$> build_tasks o) →
  (∀ t, t ∈ build_tasks o → task_target t ∉ task_dependencies t) →
  match optimize_build_plan warning_frames recursion_limit o with
  | Ok o' =>
      ∃ r, _topological_sort warning_frames recursion_limit o = Ok r ∧
        ∀ (i : nat) t, r !! i = Some t →
          set_task_priority
            (Z.of_nat i + other_dependents (build_tasks o) (task_target t) * 10) t
          ∈ build_tasks o'
  | RecursionError => (recursion_limit ≤ length (build_tasks o) + warning_frames)%nat
  | KeyError => False
  end.
Proof.
  intros Hg Hnd Hself.
  pose proof (optimize_build_plan_raises warning_frames recursion_limit o) as Hraises.
  destruct (optimize_build_plan warning_frames recursion_limit o) as [o'| |] eqn:Ho';
    [|done..].
  destruct Hraises as (r & Hr). exists r. split; [done|].
  destruct (optimize_build_plan_spec _ _ _ _ Hr) as (o'' & Ho'' & _ & Hrank & Hperm & _).
  rewrite Ho' in Ho''. injection Ho'' as <-.
  intros i t Hi. rewrite Hperm.
  rewrite <- (dependents_count_other _ _ Hnd Hself), <- Hg.
  eapply list_elem_of_lookup_2. by apply Hrank.
Qed.

Lemma optimize_build_plan_formula_example :
  build_tasks <$> (match optimize_build_plan 10 1000 plan_state with
                   | Ok o' => Some o' | _ => None end)
  = Some [set_task_priority 20 task_lib; set_task_priority 2 task_test;
          set_task_priority 1 task_app].
Proof. by vm_compute. Qed.

(** ** Graph ingestion *)

(** The loop over the targets, when no query raises anything but a
    non-zero exit: it runs to the end, and adds one task and one graph
    entry for each target whose query gave output, in order. *)
Lemma query_targets_complete (tool : BuildTool) (fs : gmap string string)
    (build_dir : string) (targets : list string) (o : Orchestrator) :
  (∀ target, target ∈ targets → query tool fs build_dir target ≠ OtherError) →
  ∃ o', query_targets tool fs build_dir targets o = (true, o') ∧
    build_tasks o' = build_tasks o ++ omap (task_of_query tool fs build_dir) targets ∧
    build_graph o' = foldl (graph_after_query tool fs build_dir) (build_graph o) targets ∧
    completed_tasks o' = completed_tasks o ∧ agents o' = agents o.
Proof.
  revert o. induction targets as [|target rest IH]; intros o Hok; simpl.
  - exists o. split_and!; try done. by rewrite app_nil_r.
  - assert (Hrest : ∀ t, t ∈ rest → query tool fs build_dir t ≠ OtherError)
      by (intros t Ht; apply Hok; by right).
    assert (Hhead : query tool fs build_dir target ≠ OtherError) by (apply Hok; by left).
    unfold task_of_query, graph_after_query at 2.
    destruct (query tool fs build_dir target) as [output| |]; [| |done].
    + destruct (IH (set_build_graph (<[target := parse_deps output]> (build_graph o))
                     (set_build_tasks
                        (build_tasks o ++ [new_task target build_dir (parse_deps output)]) o))
                   Hrest) as (o' & -> & Ht & Hg & Hc & Ha).
      exists o'. simpl in *. split_and!; try done. by rewrite Ht, <- app_assoc.
    + destruct (IH o Hrest) as (o' & -> & Ht & Hg & Hc & Ha).
      exists o'. by split_and!.
Qed.

(** A query that raises anything else ends the loop with failure. *)
Lemma query_targets_aborts (tool : BuildTool) (fs : gmap string string)
    (build_dir : string) (targets : list string) (o : Orchestrator) (target : string) :
  target ∈ targets → query tool fs build_dir target = OtherError →
  (query_targets tool fs build_dir targets o).1 = false.
Proof.
  revert o. induction targets as [|t rest IH]; intros o Hin Herr; simpl.
  { by apply elem_of_nil in Hin. }
  destruct (decide (t = target)) as [->|Hne]; [by rewrite Herr|].
  apply elem_of_cons in Hin as [->|Hin]; [done|].
  destruct (query tool fs build_dir t); [by apply IH..|done].
Qed.

(** The build file is never the placeholder source. *)
Lemma build_ninja_not_placeholder (build_dir : string) :
  path_join build_dir "build.ninja" ≠ "placeholder.cpp".
Proof.
  unfold path_join. destruct (decide (build_dir = "")); [done|].
  assert (Hsuffix : ∀ d suffix, suffix = "build.ninja" ∨ suffix = "/build.ninja" →
            (d ++ suffix)%string ≠ "placeholder.cpp").
  { intros d suffix Hs H.
    do 16 (destruct d as [|? d]; simpl in H;
           [destruct Hs as [-> | ->]; discriminate H|];
           first [discriminate H | injection H as _ H]). }
  destruct (String.prefix _ _); apply Hsuffix; [by left|by right].
Qed.

(** What the [try] of [parse_build_tasks] gives, on the files it finds. *)
Lemma parse_build_tasks_returned (tool : BuildTool) (build_dir : string)
    (o : Orchestrator) (fs' : gmap string string) :
  match targets_all tool fs' build_dir with
  | Output output =>
      let '(ok, o') := query_targets tool fs' build_dir (parse_targets output) o in
      ((∀ target, target ∈ parse_targets output →
          query tool fs' build_dir target ≠ OtherError) →
       ok = true ∧
       build_tasks o' = build_tasks o
                        ++ omap (task_of_query tool fs' build_dir) (parse_targets output) ∧
       build_graph o' = foldl (graph_after_query tool fs' build_dir) (build_graph o)
                              (parse_targets output)) ∧
      ((∀ target, target ∈ parse_targets output →
          query tool fs' build_dir target = CalledProcessError) →
       ok = true ∧ build_tasks o' = build_tasks o ∧ build_graph o' = build_graph o) ∧
      ((∃ target, target ∈ parse_targets output ∧
          query tool fs' build_dir target = OtherError) → ok = false)
  | _ => True
  end.
Proof.
  destruct (targets_all tool fs' build_dir) as [output| |] eqn:Hlist; [|done..].
  destruct (query_targets tool fs' build_dir (parse_targets output) o) as [ok o'] eqn:Hq.
  split_and!.
  - intros Hok.
    destruct (query_targets_complete tool fs' build_dir (parse_targets output) o Hok)
      as (o2 & Hq2 & Ht & Hg & _).
    rewrite Hq in Hq2. by injection Hq2 as -> ->.
  - intros Hall.
    destruct (query_targets_complete tool fs' build_dir (parse_targets output) o)
      as (o2 & Hq2 & Ht & Hg & _).
    { intros target Ht. by rewrite (Hall target Ht). }
    rewrite Hq in Hq2. injection Hq2 as -> ->.
    split; [done|]. split.
    + rewrite Ht. replace (omap _ _) with (@nil BuildTask); [by rewrite app_nil_r|].
      symmetry. clear -Hall. induction (parse_targets output) as [|t l IH]; [done|].
      simpl. unfold task_of_query at 1. rewrite (Hall t) by (by left).
      apply IH. intros u Hu. apply Hall. by right.
    + rewrite Hg. clear -Hall. generalize (build_graph o).
      induction (parse_targets output) as [|t l IH]; intros g; [done|].
      simpl. unfold graph_after_query at 2. rewrite (Hall t) by (by left).
      apply IH. intros u Hu. apply Hall. by right.
  - intros (target & Hin & Herr).
    pose proof (query_targets_aborts tool fs' build_dir _ o target Hin Herr) as Hf.
    by rewrite Hq in Hf.
Qed.

(** C6, as the code has it. When build.ninja is absent, ingestion first
    creates the build directory and writes a minimal build.ninja and a
    placeholder.cpp, and goes on with them; a present build.ninja leaves the
    files untouched. When creating the directory or one of the two writes
    raises, the error leaves the method: nothing is returned, the tasks and
    the graph are untouched, and the files are as the failed call left them
    (with build.ninja written when it was the second write that failed).
    Otherwise the method returns. It returns failure with tasks and graph
    untouched when the listing of the targets fails. When the listing
    succeeds, a query that exits non-zero only omits its target: ingestion
    returns success and records one task and one graph entry for every
    listed target whose query gave output, so it returns success with
    nothing recorded when every query exits non-zero. It returns failure
    after a successful listing only when a query raises some other
    exception. *)
Theorem parse_build_tasks_spec (files : FileSystem) (tool : BuildTool)
    (build_dir : string) (fs : gmap string string) (o : Orchestrator) :
  match parse_build_tasks files tool build_dir fs o with
  | (None, fs', o') =>
      o' = o ∧ fs !! path_join build_dir "build.ninja" = None ∧
      (makedirs files fs build_dir = false ∧ fs' = fs ∨
       makedirs files fs build_dir = true ∧
       write_text files fs (path_join build_dir "build.ninja")
                  (minimal_build_ninja build_dir) = WriteError fs' ∨
       makedirs files fs build_dir = true ∧
       write_text files fs (path_join build_dir "build.ninja")
                  (minimal_build_ninja build_dir) = Written ∧
       write_text files
                  (<[path_join build_dir "build.ninja" := minimal_build_ninja build_dir]> fs)
                  "placeholder.cpp" placeholder_cpp = WriteError fs')
  | (Some ok, fs', o') =>
      (fs !! path_join build_dir "build.ninja" = None →
         makedirs files fs build_dir = true ∧
         write_text files fs (path_join build_dir "build.ninja")
                    (minimal_build_ninja build_dir) = Written ∧
         write_text files
                    (<[path_join build_dir "build.ninja" := minimal_build_ninja build_dir]> fs)
                    "placeholder.cpp" placeholder_cpp = Written ∧
         fs' = <["placeholder.cpp" := placeholder_cpp]>
                 (<[path_join build_dir "build.ninja" := minimal_build_ninja build_dir]> fs) ∧
         fs' !! path_join build_dir "build.ninja" = Some (minimal_build_ninja build_dir) ∧
         fs' !! "placeholder.cpp" = Some placeholder_cpp) ∧
      (is_Some (fs !! path_join build_dir "build.ninja") → fs' = fs) ∧
      match targets_all tool fs' build_dir with
      | Output output =>
          ((∀ target, target ∈ parse_targets output →
              query tool fs' build_dir target ≠ OtherError) →
           ok = true ∧
           build_tasks o' = build_tasks o
                            ++ omap (task_of_query tool fs' build_dir) (parse_targets output) ∧
           build_graph o' = foldl (graph_after_query tool fs' build_dir) (build_graph o)
                                  (parse_targets output)) ∧
          ((∀ target, target ∈ parse_targets output →
              query tool fs' build_dir target = CalledProcessError) →
           ok = true ∧ build_tasks o' = build_tasks o ∧ build_graph o' = build_graph o) ∧
          ((∃ target, target ∈ parse_targets output ∧
              query tool fs' build_dir target = OtherError) → ok = false)
      | _ => ok = false ∧ o' = o
      end
  end.
Proof.
  pose proof (parse_build_tasks_returned tool build_dir o) as Hreturned.
  unfold parse_build_tasks. cbv zeta.
  destruct (decide (is_Some (fs !! path_join build_dir "build.ninja"))) as [Hsome|Hnone].
  { specialize (Hreturned fs).
    destruct (targets_all tool fs build_dir) as [output| |] eqn:Hlist.
    - destruct (query_targets tool fs build_dir (parse_targets output) o) as [ok o'] eqn:Hq.
      split; [|split; [done|]].
      + intros Hnone. rewrite Hnone in Hsome. by destruct Hsome.
      + rewrite ?Hlist. exact Hreturned.
    - split; [|split; [done|]].
      + intros Hnone. rewrite Hnone in Hsome. by destruct Hsome.
      + by rewrite ?Hlist.
    - split; [|split; [done|]].
      + intros Hnone. rewrite Hnone in Hsome. by destruct Hsome.
      + by rewrite ?Hlist. }
  assert (Habsent : fs !! path_join build_dir "build.ninja" = None).
  { destruct (fs !! path_join build_dir "build.ninja") eqn:E; [|done].
    destruct Hnone. by eexists. }
  destruct (makedirs files fs build_dir) eqn:Hmk; [|split_and!; try done; by left].
  destruct (write_text files fs _ _) as [|left1] eqn:Hw1;
    [|split_and!; try done; right; by left].
  destruct (write_text files (<[_ := _]> fs) _ _) as [|left2] eqn:Hw2;
    [|split_and!; try done; right; by right].
  set (fs' := <["placeholder.cpp" := placeholder_cpp]> _).
  assert (Hfiles : fs' !! path_join build_dir "build.ninja"
                   = Some (minimal_build_ninja build_dir) ∧
                   fs' !! "placeholder.cpp" = Some placeholder_cpp).
  { unfold fs'. split; [|apply lookup_insert_eq].
    rewrite lookup_insert_ne by (apply not_eq_sym, build_ninja_not_placeholder).
    apply lookup_insert_eq. }
  specialize (Hreturned fs').
  destruct (targets_all tool fs' build_dir) as [output| |] eqn:Hlist.
  - destruct (query_targets tool fs' build_dir (parse_targets output) o) as [ok o'] eqn:Hq.
    split; [by intros _|]. split; [intros Hsome; by destruct Hnone|].
    rewrite ?Hlist. exact Hreturned.
  - split; [by intros _|]. split; [intros Hsome; by destruct Hnone|]. by rewrite ?Hlist.
  - split; [by intros _|]. split; [intros Hsome; by destruct Hnone|]. by rewrite ?Hlist.
Qed.

Lemma parse_build_tasks_spec_witness :
  (parse_build_tasks plain_files flaky_tool "build" build_disk empty_state).1.1 = Some true ∧
  build_tasks (parse_build_tasks plain_files flaky_tool "build" build_disk empty_state).2
    = [new_task "app" "build" ["lib.o"]].
Proof.
  pose proof (parse_build_tasks_spec plain_files flaky_tool "build" build_disk empty_state)
    as H.
  destruct (parse_build_tasks plain_files flaky_tool "build" build_disk empty_state)
    as [[[ok|] fs'] o'].
  - destruct H as (_ & _ & H). simpl in H. destruct H as (H & _ & _).
    destruct H as (Hok & Htasks & _).
    + intros target _. simpl. case_decide; discriminate.
    + simpl. split; [by rewrite Hok|]. rewrite Htasks. reflexivity.
  - destruct H as (_ & Habsent & _). vm_compute in Habsent. discriminate Habsent.
Defined.

(** C6 as first stated fails. With no build file and a tool that cannot be
    run, ingestion still writes a build file and a source file of its own.
    With no build file and a tool that works on what was written, it
    returns success with the two tasks of the file it wrote. With a build
    file whose every query exits non-zero, it returns success, not failure,
    with nothing recorded. With no build file and a build directory that
    cannot be created (the empty path), it returns nothing at all: the
    [OSError] leaves the method; and when placeholder.cpp cannot be written
    the error leaves the method with a build file already written. *)
Lemma parse_build_tasks_fabricates_inputs :
  (let '(ok, fs', o') := parse_build_tasks plain_files absent_tool "build" ∅ empty_state in
   ok = Some false ∧ build_tasks o' = [] ∧
   fs' !! "build/build.ninja" = Some (minimal_build_ninja "build") ∧
   fs' !! "placeholder.cpp" = Some placeholder_cpp) ∧
  (let '(ok, fs', o') :=
     parse_build_tasks plain_files placeholder_tool "build" ∅ empty_state in
   ok = Some true ∧
   task_target <$> build_tasks o' = ["build/placeholder.o"; "build/placeholder"]) ∧
  (let '(ok, fs', o') :=
     parse_build_tasks plain_files listing_only_tool "build" build_disk empty_state in
   ok = Some true ∧ build_tasks o' = [] ∧ build_graph o' = ∅ ∧ fs' = build_disk) ∧
  parse_build_tasks plain_files absent_tool "" ∅ empty_state = (None, ∅, empty_state) ∧
  (let '(ok, fs', o') := parse_build_tasks read_only_cwd absent_tool "build" ∅ empty_state in
   ok = None ∧ o' = empty_state ∧
   fs' !! "build/build.ninja" = Some (minimal_build_ninja "build") ∧
   fs' !! "placeholder.cpp" = None).
Proof. by vm_compute. Qed.
(** ** Host discovery *)

(** C9. When the probe of a host fails (no decoded response: connection
    refused, timeout or any other socket error; or a response without the
    agent prefix; or a payload that does not yield the agent data), the
    whole state, registry included, is unchanged, and the loop over the
    hosts file goes on with the remaining lines exactly as if that line had
    not been there. Whenever a probe does change the state, the response
    carried the prefix and a payload yielding the agent data, and the
    change is the registration of that agent. *)
Theorem probe_failure_skips_host (w : Outside) (host : string) (port : Z) (o : Orchestrator) :
  (probe w host port = NoReply ∨
   ∃ raw, probe w host port = Reply raw ∧
     (startswith "NINJA-AGENT:" (strip raw) = false ∨
      agent_data w (str_drop 12 (strip raw)) = None)) →
  _probe_and_register_agent w host port o = o ∧
  (∀ line rest, parse_host_line w line = Host host port →
     discover_lines w (line :: rest) o = discover_lines w rest o) ∧
  (∀ host' port' o0, _probe_and_register_agent w host' port' o0 ≠ o0 →
     ∃ raw name cores memory,
       probe w host' port' = Reply raw ∧
       startswith "NINJA-AGENT:" (strip raw) = true ∧
       agent_data w (str_drop 12 (strip raw)) = Some (name, cores, memory) ∧
       _probe_and_register_agent w host' port' o0
       = set_agents (register (mkAgent name host' port' cores "idle" None 0 memory (clock w))
                              (agents o0)) o0).
Proof.
  intros Hfail.
  assert (Hsame : _probe_and_register_agent w host port o = o).
  { unfold _probe_and_register_agent.
    destruct Hfail as [-> | (raw & -> & [-> | Hdata])]; [done..|].
    destruct (startswith _ _); [|done]. by rewrite Hdata. }
  split; [done|]. split.
  - intros line rest Hline. simpl. by rewrite Hline, Hsame.
  - intros host' port' o0. unfold _probe_and_register_agent.
    destruct (probe w host' port') as [|raw]; [done|].
    destruct (startswith _ _) eqn:Hprefix; [|done].
    destruct (agent_data w _) as [[[name cores] memory]|] eqn:Hdata; [|done].
    intros _. by exists raw, name, cores, memory.
Qed.

Lemma probe_failure_skips_host_witness :
  probe farm_network "10.0.0.9" 8374 = NoReply ∧
  _probe_and_register_agent farm_network "10.0.0.9" 8374 empty_state = empty_state ∧
  agents (_discover_from_hosts_file farm_network (Some farm_hosts) empty_state)
    = [("farm-1", mkAgent "farm-1" "10.0.0.7" 8374 8 "idle" None 0 4096 100)].
Proof.
  split; [reflexivity|]. split; [|reflexivity].
  exact (proj1 (probe_failure_skips_host farm_network "10.0.0.9" 8374 empty_state
                  (or_introl eq_refl))).
Defined.

(** ** The order of the topological sort *)

Section VisitOrder.
Context (graph : gmap string (list string)) (t2t : gmap string BuildTask).
Context (warning_frames : nat).
Hypothesis t2t_keys : ∀ k t, t2t !! k = Some t → task_target t = k.

Lemma deps_loop_order (n : nat) (deps : list string) :
  (∀ dep s, dep ∈ dom t2t → sort_inv t2t s → temp_visited s ⊆ dom t2t →
     (size (dom t2t) + warning_frames < n + size (temp_visited s))%nat →
     (∀ y, y ∈ temp_visited s → rtc (dep_edge graph t2t) y dep) →
     deps_first graph t2t (result s) →
     ∀ s', visit graph t2t warning_frames n dep s = Ok s' →
           deps_first graph t2t (result s')) →
  ∀ s, sort_inv t2t s → temp_visited s ⊆ dom t2t →
    (size (dom t2t) + warning_frames < n + size (temp_visited s))%nat →
    (∀ d, d ∈ deps → is_Some (t2t !! d) →
       ∀ y, y ∈ temp_visited s → rtc (dep_edge graph t2t) y d) →
    deps_first graph t2t (result s) →
    ∃ s', for_each (λ dep s, if decide (is_Some (t2t !! dep))
                            then visit graph t2t warning_frames n dep s else Ok s) deps s
          = Ok s' ∧
          visit_post t2t s s' ∧ deps_first graph t2t (result s') ∧
          (∀ d, d ∈ deps → is_Some (t2t !! d) →
             d ∈ temp_visited s ∨ d ∈ visited s').
Proof.
  intros Hvisit. induction deps as [|dep deps IH];
    intros s Hinv Htemp Hframes Hpath Hord; simpl.
  - exists s. split_and!; [done|by apply visit_post_refl|done|].
    intros d Hd. by apply elem_of_nil in Hd.
  - assert (Hpath' : ∀ d, d ∈ deps → is_Some (t2t !! d) →
              ∀ y, y ∈ temp_visited s → rtc (dep_edge graph t2t) y d)
      by (intros d Hd; apply Hpath; by right).
    destruct (decide (is_Some (t2t !! dep))) as [Hdep|Hdep]; simpl.
    + destruct (visit_ok graph t2t warning_frames t2t_keys n dep s) as (s1 & Hs1 & Hpost & Hdone);
        [by apply elem_of_dom|done..|].
      assert (Hord1 : deps_first graph t2t (result s1)).
      { eapply (Hvisit dep s); try done; [by apply elem_of_dom|].
        apply Hpath; [by left|done]. }
      rewrite Hs1. simpl. pose proof Hpost as (Hinv1 & Ht1 & Hv1 & _).
      destruct (IH s1) as (s2 & -> & Hpost2 & Hord2 & Hall);
        [done|by rewrite Ht1|by rewrite Ht1|by rewrite Ht1|done|].
      exists s2. split_and!; [done|by eapply visit_post_trans|done|].
      intros d [->|Hd]%elem_of_cons Hk.
      * destruct Hdone as [H|H]; [by left|]. right.
        destruct Hpost2 as (_ & _ & Hv2 & _). set_solver.
      * destruct (Hall d Hd Hk) as [H|H]; [left; by rewrite <- Ht1|by right].
    + destruct (IH s) as (s2 & -> & Hpost2 & Hord2 & Hall); try done.
      exists s2. split_and!; try done.
      intros d [->|Hd]%elem_of_cons Hk; [done|by apply Hall].
Qed.

Lemma visit_order (n : nat) :
  ∀ target s, target ∈ dom t2t → sort_inv t2t s → temp_visited s ⊆ dom t2t →
    (size (dom t2t) + warning_frames < n + size (temp_visited s))%nat →
    (∀ y, y ∈ temp_visited s → rtc (dep_edge graph t2t) y target) →
    deps_first graph t2t (result s) →
    ∀ s', visit graph t2t warning_frames n target s = Ok s' →
          deps_first graph t2t (result s').
Proof.
  induction n as [|n IH]; intros target s Hk Hinv Htemp Hframes Hpath Hord s'; [done|].
  simpl.
  destruct (decide (target ∈ temp_visited s)) as [Hin|Hnotin].
  { destruct (decide (warning_frames ≤ n)%nat); [by intros [= <-]|done]. }
  destruct (decide (target ∈ visited s)) as [Hvis|Hnvis]; [by intros [= <-]|].
  set (s1 := mkSort (visited s) ({[target]} ∪ temp_visited s) (result s)).
  assert (Hsize : size (temp_visited s1) = S (size (temp_visited s))).
  { simpl. rewrite size_union by set_solver. by rewrite size_singleton. }
  destruct (deps_loop_order n (default [] (graph !! target)) IH s1)
    as (s2 & -> & (Hinv2 & Ht2 & Hv2 & Hn2) & Hord2 & Hall).
  - done.
  - simpl. set_solver.
  - lia.
  - intros d Hd Hkd y [->%elem_of_singleton|Hy]%elem_of_union.
    + by apply rtc_once.
    + eapply rtc_r; [by apply Hpath|done].
  - done.
  - simpl. rewrite decide_True by (rewrite Ht2; simpl; set_solver).
    intros [= <-]. simpl.
    apply elem_of_dom in Hk as [task Htask]. rewrite Htask.
    pose proof (t2t_keys _ _ Htask) as Htarget.
    destruct Hinv2 as (_ & _ & Hiff2 & _).
    intros i x d Hi Hedge Hback.
    apply lookup_app_Some in Hi as [Hi|[Hlen Hi]].
    + destruct (Hord2 i x d Hi Hedge Hback) as (j & y & Hj & Hy & Hty).
      exists j, y. split_and!; try done. by apply lookup_app_l_Some.
    + apply list_lookup_singleton_Some in Hi as [_ <-].
      rewrite Htarget in Hedge, Hback. destruct Hedge as [Hd Hkd].
      destruct (Hall d Hd Hkd) as [[->%elem_of_singleton|Hy]%elem_of_union|Hvis2].
      * by destruct Hback.
      * destruct Hback. by apply Hpath.
      * apply Hiff2, list_elem_of_fmap in Hvis2 as (y & -> & Hy).
        apply list_elem_of_lookup in Hy as (j & Hj).
        exists j, y. split_and!; try done.
        -- apply lookup_lt_Some in Hj. lia.
        -- by apply lookup_app_l_Some.
Qed.

Lemma visit_all_order (n : nat) (tasks : list BuildTask) :
  (size (dom t2t) + warning_frames < n)%nat →
  (∀ t, t ∈ tasks → task_target t ∈ dom t2t) →
  ∀ s, sort_inv t2t s → temp_visited s = ∅ → deps_first graph t2t (result s) →
    ∀ s', visit_all graph t2t warning_frames n tasks s = Ok s' →
          deps_first graph t2t (result s').
Proof.
  intros Hframes. unfold visit_all.
  induction tasks as [|t tasks IH]; intros Hknown s Hinv Htemp Hord s'; simpl.
  { by intros [= <-]. }
  assert (Hrest : ∀ u, u ∈ tasks → task_target u ∈ dom t2t)
    by (intros u Hu; apply Hknown; by right).
  destruct (decide (task_target t ∈ visited s)) as [Hv|Hv]; simpl; [by apply IH|].
  destruct (visit_ok graph t2t warning_frames t2t_keys n (task_target t) s)
    as (s1 & Hs1 & (Hinv1 & Ht1 & _) & _).
  - apply Hknown. by left.
  - done.
  - rewrite Htemp. set_solver.
  - rewrite Htemp, size_empty. lia.
  - assert (Hord1 : deps_first graph t2t (result s1)).
    { eapply (visit_order n (task_target t) s); try done.
      - apply Hknown. by left.
      - rewrite Htemp. set_solver.
      - rewrite Htemp, size_empty. lia.
      - intros y Hy. rewrite Htemp in Hy. set_solver. }
    rewrite Hs1. simpl. apply IH; [done|done|congruence|done].
Qed.

End VisitOrder.

(** No chain of followed dependencies leads from lib.o back to app in the
    diamond. *)
Lemma diamond_no_path_back :
  ¬ rtc (dep_edge (build_graph diamond_state)
           (target_to_task_of (build_tasks diamond_state))) "lib.o" "app".
Proof.
  assert (Hclosed : ∀ x y,
    rtc (dep_edge (build_graph diamond_state)
           (target_to_task_of (build_tasks diamond_state))) x y →
    x = "lib.o" ∨ x = "cfg.h" → y = "lib.o" ∨ y = "cfg.h").
  { induction 1 as [x|x y z [Hxy _] _ IH]; [done|].
    intros Hx. apply IH. destruct Hx as [-> | ->].
    - change (y ∈ ["cfg.h"]) in Hxy. apply list_elem_of_singleton in Hxy. by right.
    - change (y ∈ @nil string) in Hxy. by apply elem_of_nil in Hxy. }
  intros Hpath. by destruct (Hclosed _ _ Hpath (or_introl eq_refl)).
Qed.

(** X1. Every list returned by [_topological_sort] respects every followed
    dependency that is not on a cycle: when the task at position i lists d,
    d is the target of a pending task, and no chain of such dependencies
    leads from d back to that task, a task of target d stands at an earlier
    position. *)
Theorem topological_sort_respects_dependencies (warning_frames recursion_limit : nat)
    (o : Orchestrator) (r : list BuildTask) :
  _topological_sort warning_frames recursion_limit o = Ok r →
  ∀ (i : nat) x d, r !! i = Some x →
    dep_edge (build_graph o) (target_to_task_of (build_tasks o)) (task_target x) d →
    (rtc (dep_edge (build_graph o) (target_to_task_of (build_tasks o)))
         d (task_target x) → False) →
    ∃ (j : nat) y, (j < i)%nat ∧ r !! j = Some y ∧ task_target y = d.
Proof.
  intros Hr.
  set (big := (recursion_limit `max` S (length (build_tasks o) + warning_frames))%nat).
  apply (topological_sort_limit_mono _ _ big) in Hr; [|lia|done].
  unfold _topological_sort in Hr.
  destruct (visit_all _ _ _ _ _ _) as [s| |] eqn:Hs; simpl in Hr; try done.
  injection Hr as <-.
  eapply (visit_all_order (build_graph o) (target_to_task_of (build_tasks o))
            warning_frames (λ k t H, proj2 (target_to_task_keys _ k t H))
            big (build_tasks o));
    [| | | | |exact Hs]; simpl.
  - rewrite target_to_task_dom.
    pose proof (size_list_to_set_le (task_target <$> build_tasks o)) as Hle.
    rewrite length_fmap in Hle. lia.
  - intros t Ht. rewrite target_to_task_dom, elem_of_list_to_set.
    by apply list_elem_of_fmap_2.
  - split_and!; simpl; [set_solver|constructor|set_solver|set_solver].
  - done.
  - intros i x d Hi. by rewrite lookup_nil in Hi.
Qed.

Lemma topological_sort_respects_dependencies_witness :
  _topological_sort 10 1000 diamond_state = Ok [task_cfg; task_lib2; task_gen; task_app2] ∧
  ∃ (j : nat) y, (j < 3)%nat ∧
    [task_cfg; task_lib2; task_gen; task_app2] !! j = Some y ∧ task_target y = "lib.o".
Proof.
  assert (Hr : _topological_sort 10 1000 diamond_state
               = Ok [task_cfg; task_lib2; task_gen; task_app2]) by (by vm_compute).
  split; [exact Hr|].
  apply (topological_sort_respects_dependencies 10 1000 diamond_state _ Hr
           3 task_app2 "lib.o").
  - reflexivity.
  - split; apply (bool_decide_unpack _); vm_compute; exact I.
  - exact diamond_no_path_back.
Defined.

(** ** More on the ready-task scan *)

Lemma filter_sublist_mono {A : Type} (P : A → Prop) `{∀ x, Decision (P x)} (l1 l2 : list A) :
  l1 `sublist_of` l2 → filter P l1 `sublist_of` filter P l2.
Proof.
  induction 1 as [|x l1 l2 Hl IH|x l1 l2 Hl IH]; [done| |].
  - rewrite !filter_cons. case_decide; [by constructor|done].
  - rewrite filter_cons. case_decide; [by constructor|done].
Qed.

Lemma StronglySorted_sublist {A : Type} (R : A → A → Prop) (l1 l2 : list A) :
  StronglySorted R l2 → l1 `sublist_of` l2 → StronglySorted R l1.
Proof.
  intros Hs Hsub. induction Hsub as [|x l1 l2 Hl IH|x l1 l2 Hl IH]; [done| |].
  - apply StronglySorted_cons in Hs as [Hx Hs]. constructor; [by apply IH|].
    rewrite Forall_forall in Hx |- *. intros y Hy. apply Hx.
    by eapply sublist_subseteq.
  - apply StronglySorted_cons in Hs as [_ Hs]. by apply IH.
Qed.

(** X2. Whatever it returns, the scan leaves the pending list in
    descending order of priority, and tasks of equal priority in the
    relative order they had before. *)
Theorem get_next_task_leaves_sorted (o : Orchestrator) :
  StronglySorted (λ a b, task_priority b ≤ task_priority a)
                 (build_tasks (_get_next_task o).2) ∧
  ∀ p, filter (λ t, task_priority t = p) (build_tasks (_get_next_task o).2)
       `sublist_of` filter (λ t, task_priority t = p) (build_tasks o).
Proof.
  pose proof (sort_desc_sorted task_priority (build_tasks o)) as Hs.
  unfold _get_next_task.
  destruct (list_find _ _) as [[i t]|] eqn:Hfind; simpl.
  - split.
    + eapply StronglySorted_sublist; [exact Hs|apply sublist_delete].
    + intros p. rewrite <- (sort_desc_stable task_priority p (build_tasks o)).
      apply filter_sublist_mono, sublist_delete.
  - split; [done|]. intros p. by rewrite sort_desc_stable.
Qed.

Lemma min_rank_task (rank : string → nat) (l : list BuildTask) :
  l ≠ [] →
  ∃ t, t ∈ l ∧ ∀ u, u ∈ l → (rank (task_target t) ≤ rank (task_target u))%nat.
Proof.
  induction l as [|x l IH]; [done|]. intros _.
  destruct l as [|y l].
  - exists x. split; [by left|]. intros u ->%list_elem_of_singleton. lia.
  - destruct IH as (t & Ht & Hmin); [done|].
    destruct (decide (rank (task_target x) ≤ rank (task_target t))%nat) as [Hle|Hgt].
    + exists x. split; [by left|].
      intros u [->|Hu]%elem_of_cons; [lia|]. specialize (Hmin u Hu). lia.
    + exists t. split; [by right|].
      intros u [->|Hu]%elem_of_cons; [lia|by apply Hmin].
Qed.

(** A ready pending task makes the scan return a task. *)
Lemma get_next_task_some (o : Orchestrator) (t : BuildTask) :
  t ∈ build_tasks o → ready o t → ∃ u, (_get_next_task o).1 = Some u.
Proof.
  intros Ht Hr. unfold _get_next_task.
  destruct (list_find _ _) as [[i u]|] eqn:Hfind; simpl; [by exists u|].
  rewrite list_find_None, Forall_forall in Hfind.
  destruct (Hfind t); [|by apply deps_completed_ready].
  by rewrite (sort_desc_perm task_priority (build_tasks o)).
Qed.

Lemma diamond_ranked (t : BuildTask) (d : string) :
  t ∈ build_tasks diamond_state → d ∈ task_dependencies t →
  (∃ c, c ∈ completed_tasks diamond_state ∧ task_target c = d) ∨
  (∃ u, u ∈ build_tasks diamond_state ∧ task_target u = d ∧
        (diamond_rank d < diamond_rank (task_target t))%nat).
Proof.
  intros Ht Hd. right. simpl in Ht.
  repeat (apply elem_of_cons in Ht as [->|Ht]); [| | | |by apply elem_of_nil in Ht];
    simpl in Hd;
    repeat (apply elem_of_cons in Hd as [->|Hd]); try (by apply elem_of_nil in Hd).
  - exists task_lib2. split_and!; [set_solver|done|vm_compute; lia].
  - exists task_gen. split_and!; [set_solver|done|vm_compute; lia].
  - exists task_cfg. split_and!; [set_solver|done|vm_compute; lia].
  - exists task_cfg. split_and!; [set_solver|done|vm_compute; lia].
Qed.

(** X3. The scan makes progress on an acyclic plan: when the pending list
    is not empty, every dependency of a pending task is the target of a
    completed task or of a pending task, and the targets can be numbered so
    that a pending dependency has a smaller number than its dependent, the
    scan returns a task. *)
Theorem get_next_task_progress (o : Orchestrator) (rank : string → nat) :
  build_tasks o ≠ [] →
  (∀ t d, t ∈ build_tasks o → d ∈ task_dependencies t →
     (∃ c, c ∈ completed_tasks o ∧ task_target c = d) ∨
     (∃ u, u ∈ build_tasks o ∧ task_target u = d ∧
           (rank d < rank (task_target t))%nat)) →
  ∃ t, (_get_next_task o).1 = Some t.
Proof.
  intros Hne Hdeps.
  destruct (min_rank_task rank (build_tasks o) Hne) as (t & Ht & Hmin).
  apply (get_next_task_some o t Ht).
  intros d Hd. destruct (Hdeps t d Ht Hd) as [Hc|(u & Hu & <- & Hlt)]; [done|].
  specialize (Hmin u Hu). lia.
Qed.

Lemma get_next_task_progress_witness :
  build_tasks diamond_state ≠ [] ∧ ∃ t, (_get_next_task diamond_state).1 = Some t.
Proof.
  split; [discriminate|].
  apply (get_next_task_progress diamond_state diamond_rank); [discriminate|].
  exact diamond_ranked.
Defined.

(** ** The executor loop *)

(** The three ways through one pass of the loop. *)
Lemma executor_iteration_cases (ninja_build : string → string → RunResult)
    (t0 t1 : Z) (o : Orchestrator) :
  ((_get_next_task o).1 = None ∧
   _task_executor_iteration ninja_build t0 t1 o = (_get_next_task o).2) ∨
  ∃ t rest, _get_next_task o = (Some t, set_build_tasks rest o) ∧
    build_tasks o ≡ₚ t :: rest ∧ t ∈ build_tasks o ∧ ready o t ∧
    (((∀ j k b, agents o !! j = Some (k, b) → agent_status b ≠ "idle") ∧
      _task_executor_iteration ninja_build t0 t1 o = set_build_tasks (rest ++ [t]) o) ∨
     ∃ i k a, agents o !! i = Some (k, a) ∧ agent_status a = "idle" ∧
       _task_executor_iteration ninja_build t0 t1 o
       = resolve (_execute_task_on_agent ninja_build t0 t1 t
                    (reserve_for (task_target t) a)).1 i
                 (_execute_task_on_agent ninja_build t0 t1 t
                    (reserve_for (task_target t) a)).2
                 (set_agents (update_slot i (reserve_for (task_target t)) (agents o))
                             (set_build_tasks rest o))).
Proof.
  unfold _task_executor_iteration, _get_next_task.
  destruct (list_find _ _) as [[n t]|] eqn:Hfind; simpl; [right|by left].
  pose proof (scan_found o n t Hfind) as (Hin & Hr & _ & Hperm).
  eexists t, _. split; [done|]. split_and!; try done.
  unfold _reserve_agent. simpl.
  destruct (sort_desc _ (idle_agents _)) as [|[i a] more] eqn:Hsort; simpl.
  - left. split; [by apply no_idle_agent|done].
  - right. pose proof (best_idle_agent _ _ _ _ Hsort) as ((k & Hk) & Hidle & _).
    exists i, k, a. split_and!; try done.
    by destruct (_execute_task_on_agent _ _ _ _ _).
Qed.

Lemma release_after_reserve (i : nat) (target : string) (ags : list (string * BuildAgent)) :
  update_slot i release (update_slot i (reserve_for target) ags) = update_slot i release ags.
Proof.
  unfold update_slot. rewrite list_alter_alter_eq. by apply list_alter_ext.
Qed.

(** X4. One pass of the executor loop neither loses nor duplicates a task:
    the targets, directories and dependency lists of the pending and
    completed tasks together are the same before and after, up to order. *)
Theorem executor_iteration_conserves_tasks (ninja_build : string → string → RunResult)
    (t0 t1 : Z) (o : Orchestrator) :
  task_plan <$> (build_tasks (_task_executor_iteration ninja_build t0 t1 o)
                 ++ completed_tasks (_task_executor_iteration ninja_build t0 t1 o))
  ≡ₚ task_plan <$> (build_tasks o ++ completed_tasks o).
Proof.
  destruct (executor_iteration_cases ninja_build t0 t1 o)
    as [[Hnone ->]|(t & rest & Hnext & Hperm & _ & _ & [[_ ->]|(i & k & a & _ & _ & ->)])].
  - unfold _get_next_task in Hnone |- *.
    destruct (list_find _ _) as [[n t]|] eqn:Hfind; simpl in *; [done|].
    by rewrite sort_desc_perm.
  - simpl. rewrite Hperm. rewrite <- (Permutation_cons_append rest t). done.
  - pose proof (execute_keeps_plan ninja_build t0 t1 t (reserve_for (task_target t) a))
      as (Ht & _ & Hd & _).
    assert (Hplan : task_plan (_execute_task_on_agent ninja_build t0 t1 t
                                 (reserve_for (task_target t) a)).2 = task_plan t).
    { unfold task_plan. rewrite Ht, Hd. f_equal. f_equal.
      unfold _execute_task_on_agent. simpl.
      destruct (decide _); [|done]. by destruct (ninja_build _ _). }
    unfold resolve. destruct (_execute_task_on_agent _ _ _ _ _) as [[] t']; simpl in *.
    + rewrite Hperm, !fmap_app, !fmap_cons, Hplan. simpl.
      by rewrite app_assoc, <- (Permutation_cons_append _ (task_plan t)).
    + rewrite Hperm, !fmap_app, !fmap_cons. simpl.
      unfold task_plan in Hplan |- *. simpl. injection Hplan as -> -> ->.
      rewrite <- app_assoc. simpl.
      by rewrite <- Permutation_middle.
Qed.

Lemma ready_mono (o o' : Orchestrator) (t : BuildTask) :
  (∀ c, c ∈ completed_tasks o → c ∈ completed_tasks o') → ready o t → ready o' t.
Proof.
  intros Hsub Hr d Hd. destruct (Hr d Hd) as (c & Hc & Htc). exists c. by split; [apply Hsub|].
Qed.

(** X5. One pass of the executor loop never completes a task ahead of its
    dependencies: if every completed task has all its dependencies among
    the completed targets before the pass, the same holds after it. *)
Theorem executor_iteration_keeps_deps_closed (ninja_build : string → string → RunResult)
    (t0 t1 : Z) (o : Orchestrator) :
  deps_closed o → deps_closed (_task_executor_iteration ninja_build t0 t1 o).
Proof.
  intros Hclosed.
  destruct (executor_iteration_cases ninja_build t0 t1 o)
    as [[_ ->]|(t & rest & Hnext & _ & _ & Hr & [[_ ->]|(i & k & a & _ & _ & ->)])].
  - unfold _get_next_task. by destruct (list_find _ _) as [[n t]|].
  - done.
  - pose proof (execute_keeps_plan ninja_build t0 t1 t (reserve_for (task_target t) a))
      as (_ & _ & Hd & _).
    unfold resolve. destruct (_execute_task_on_agent _ _ _ _ _) as [[] t']; simpl in *.
    + intros c. simpl. intros [Hc| ->%list_elem_of_singleton]%elem_of_app.
      * eapply ready_mono; [|by apply Hclosed]. simpl. set_solver.
      * intros d Hdep. rewrite Hd in Hdep. destruct (Hr d Hdep) as (c & Hc & Htc).
        exists c. simpl. split; [set_solver|done].
    + done.
Qed.

Lemma executor_iteration_keeps_deps_closed_witness :
  task_target <$> completed_tasks diamond_half_built = ["cfg.h"; "gen.o"] ∧
  task_dependencies <$> completed_tasks diamond_half_built = [[]; ["cfg.h"]] ∧
  deps_closed diamond_half_built ∧
  deps_closed (_task_executor_iteration passing_build 206 209 diamond_half_built).
Proof.
  assert (Htargets : task_target <$> completed_tasks diamond_half_built = ["cfg.h"; "gen.o"])
    by (vm_compute; reflexivity).
  assert (Hdeps : task_dependencies <$> completed_tasks diamond_half_built = [[]; ["cfg.h"]])
    by (vm_compute; reflexivity).
  assert (H : deps_closed diamond_half_built).
  { intros c Hc dep Hdep.
    destruct (completed_tasks diamond_half_built) as [|c1 [|c2 [|]]] eqn:Hcompleted;
      try discriminate Htargets.
    injection Htargets as Ht1 Ht2. injection Hdeps as Hd1 Hd2.
    apply elem_of_cons in Hc as [->|Hc].
    - rewrite Hd1 in Hdep. by apply elem_of_nil in Hdep.
    - apply list_elem_of_singleton in Hc as ->. rewrite Hd2 in Hdep.
      apply list_elem_of_singleton in Hdep as ->.
      exists c1. split; [by left|done]. }
  split; [exact Htargets|]. split; [exact Hdeps|]. split; [exact H|].
  exact (executor_iteration_keeps_deps_closed passing_build 206 209 _ H).
Defined.

(** X6. One pass of the executor loop leaves the registry as it found it,
    except that the agent it used, which was idle, has its current task
    cleared: no agent is left busy by a pass, whether the task succeeded,
    failed, or found no agent. *)
Theorem executor_iteration_frees_agent (ninja_build : string → string → RunResult)
    (t0 t1 : Z) (o : Orchestrator) :
  agents (_task_executor_iteration ninja_build t0 t1 o) = agents o ∨
  ∃ i k a, agents o !! i = Some (k, a) ∧ agent_status a = "idle" ∧
    agents (_task_executor_iteration ninja_build t0 t1 o)
    = update_slot i release (agents o).
Proof.
  destruct (executor_iteration_cases ninja_build t0 t1 o)
    as [[_ ->]|(t & rest & Hnext & _ & _ & _ & [[_ ->]|(i & k & a & Hi & Hidle & ->)])].
  - left. unfold _get_next_task. by destruct (list_find _ _) as [[n t]|].
  - by left.
  - right. exists i, k, a. split_and!; try done.
    unfold resolve. destruct (_execute_task_on_agent _ _ _ _ _) as [[] t']; simpl;
      apply release_after_reserve.
Qed.

Lemma execute_keeps_task_plan (ninja_build : string → string → RunResult) (t0 t1 : Z)
    (task : BuildTask) (agent : BuildAgent) :
  task_plan (_execute_task_on_agent ninja_build t0 t1 task agent).2 = task_plan task.
Proof.
  unfold _execute_task_on_agent. simpl.
  destruct (decide _); [|done]. by destruct (ninja_build _ _).
Qed.

Lemma execute_passing_build (ninja_build : string → string → RunResult) (t0 t1 : Z)
    (task : BuildTask) (agent : BuildAgent) :
  (∀ dir target, ninja_build dir target = Exited 0) →
  (_execute_task_on_agent ninja_build t0 t1 task agent).1 = true ∧
  task_status (_execute_task_on_agent ninja_build t0 t1 task agent).2 = "completed".
Proof.
  intros Hpass. unfold _execute_task_on_agent. simpl.
  destruct (decide _); [|done]. by rewrite Hpass.
Qed.

(** X7. A worker drives an acyclic plan to completion. Let the build
    command always exit with status 0, let some agent be idle, let every
    dependency of a pending task be the target of a completed or of a
    pending task, and let the targets be numbered so that a pending
    dependency has a smaller number than its dependent. Then as many passes
    of the executor loop as there are pending tasks empty the pending list:
    every task that was pending is in the completed list, with status
    completed, and nothing else was added. *)
Theorem executor_run_completes (ninja_build : string → string → RunResult)
    (clocks : list (Z * Z)) (o : Orchestrator) (rank : string → nat) :
  (∀ dir target, ninja_build dir target = Exited 0) →
  (∃ j k a, agents o !! j = Some (k, a) ∧ agent_status a = "idle") →
  (∀ t d, t ∈ build_tasks o → d ∈ task_dependencies t →
     (∃ c, c ∈ completed_tasks o ∧ task_target c = d) ∨
     (∃ u, u ∈ build_tasks o ∧ task_target u = d ∧
           (rank d < rank (task_target t))%nat)) →
  length clocks = length (build_tasks o) →
  build_tasks (executor_run ninja_build clocks o) = [] ∧
  task_plan <$> completed_tasks (executor_run ninja_build clocks o)
    ≡ₚ task_plan <$> (completed_tasks o ++ build_tasks o) ∧
  (∀ c, c ∈ completed_tasks (executor_run ninja_build clocks o) →
     c ∈ completed_tasks o ∨ task_status c = "completed").
Proof.
  intros Hpass. revert o.
  induction clocks as [|[t0 t1] clocks IH]; intros o Hidle Hdeps Hlen; simpl.
  { symmetry in Hlen. apply nil_length_inv in Hlen. rewrite Hlen, app_nil_r.
    split_and!; try done. intros c Hc. by left. }
  assert (Hne : build_tasks o ≠ []) by (intros Heq; by rewrite Heq in Hlen).
  destruct (min_rank_task rank (build_tasks o) Hne) as (tmin & Htmin & Hmin).
  assert (Hready : ready o tmin).
  { intros d Hd. destruct (Hdeps tmin d Htmin Hd) as [Hc|(u & Hu & <- & Hlt)]; [done|].
    specialize (Hmin u Hu). lia. }
  destruct (get_next_task_some o tmin Htmin Hready) as (t' & Hsome).
  destruct (executor_iteration_cases ninja_build t0 t1 o)
    as [[Hnone _]|(t & rest & Hnext & Hperm & Hin & Hr &
                   [[Hbusy _]|(i & k & a & Hi & Ha & Hstep)])].
  { by rewrite Hnone in Hsome. }
  { destruct Hidle as (j & kj & aj & Hj & Haj). by destruct (Hbusy j kj aj). }
  pose proof (execute_passing_build ninja_build t0 t1 t
                (reserve_for (task_target t) a) Hpass) as [Hok Hstatus].
  pose proof (execute_keeps_task_plan ninja_build t0 t1 t
                (reserve_for (task_target t) a)) as Hplan.
  rewrite Hok in Hstep. rewrite Hstep. unfold resolve. simpl.
  set (done_task := (_execute_task_on_agent ninja_build t0 t1 t
                       (reserve_for (task_target t) a)).2) in *.
  set (o1 := set_completed_tasks _ _).
  destruct (IH o1) as (Hempty & Hplans & Hstat).
  - exists i, k, (release (reserve_for (task_target t) a)). split; [|done].
    unfold o1. simpl. rewrite release_after_reserve.
    unfold update_slot. by rewrite list_lookup_alter_eq, Hi.
  - intros t2 d Ht2 Hd. unfold o1 in Ht2 |- *. simpl in Ht2 |- *.
    assert (Ht2o : t2 ∈ build_tasks o) by (rewrite Hperm; by right).
    destruct (Hdeps t2 d Ht2o Hd) as [(c & Hc & Htc)|(u & Hu & Htu & Hlt)].
    + left. exists c. split; [set_solver|done].
    + rewrite Hperm in Hu. apply elem_of_cons in Hu as [->|Hu].
      * left. exists done_task. split; [set_solver|].
        unfold task_plan in Hplan. by injection Hplan as -> _ _.
      * right. by exists u.
  - unfold o1. simpl. rewrite Hperm in Hlen. simpl in Hlen. lia.
  - split; [done|]. split.
    + rewrite Hplans. unfold o1. simpl.
      rewrite Hperm, !fmap_app, !fmap_cons. simpl. rewrite Hplan.
      by rewrite <- app_assoc.
    + intros c Hc. destruct (Hstat c Hc) as [Hin1|Hst]; [|by right].
      unfold o1 in Hin1. simpl in Hin1.
      apply elem_of_app in Hin1 as [Hin1| ->%list_elem_of_singleton]; [by left|by right].
Qed.

Lemma executor_run_completes_witness :
  length [(200, 201); (202, 203); (204, 205); (206, 207)]
    = length (build_tasks diamond_state) ∧
  build_tasks (executor_run passing_build
                 [(200, 201); (202, 203); (204, 205); (206, 207)] diamond_state) = [].
Proof.
  split; [reflexivity|].
  apply (executor_run_completes passing_build _ diamond_state diamond_rank).
  - reflexivity.
  - exists 0%nat, "buildbox-local", local_agent. split; reflexivity.
  - exact diamond_ranked.
  - reflexivity.
Defined.

(** ** The registry *)

Lemma dict_set_keys {V : Type} (k : string) (v : V) (d : list (string * V)) :
  (dict_set k v d).*1 = if decide (k ∈ d.*1) then d.*1 else d.*1 ++ [k].
Proof.
  induction d as [|[k' v'] d IH]; [done|].
  cbn [dict_set]. destruct (decide (k' = k)) as [->|Hne].
  - rewrite !fmap_cons. cbn [fst]. by rewrite decide_True by (by left).
  - rewrite !fmap_cons, IH. cbn [fst]. destruct (decide (k ∈ d.*1)) as [Hin|Hout].
    + by rewrite decide_True by (by right).
    + rewrite decide_False; [done|]. by intros [?|?]%elem_of_cons.
Qed.

Lemma elem_of_dict_set {V : Type} (k : string) (v : V) (d : list (string * V))
    (k' : string) (v' : V) :
  NoDup d.*1 →
  (k', v') ∈ dict_set k v d ↔ (k' = k ∧ v' = v) ∨ (k' ≠ k ∧ (k', v') ∈ d).
Proof.
  induction d as [|[k0 v0] d IH]; intros Hnd.
  - cbn [dict_set]. rewrite list_elem_of_singleton. split.
    + intros [= -> ->]. by left.
    + intros [[-> ->]|[_ H]]; [done|by apply elem_of_nil in H].
  - rewrite fmap_cons in Hnd. cbn [fst] in Hnd. apply NoDup_cons in Hnd as [Hk0 Hnd].
    cbn [dict_set]. destruct (decide (k0 = k)) as [->|Hne].
    + rewrite !elem_of_cons. split.
      * intros [[= -> ->]|Hin]; [by left|].
        right. split; [|by right]. intros ->. apply Hk0.
        by apply (list_elem_of_fmap_2 fst) in Hin.
      * intros [[-> ->]|[Hk [[= -> ->]|Hin]]]; [by left|done|by right].
    + rewrite !elem_of_cons, (IH Hnd). split.
      * intros [[= -> ->]|[[-> ->]|[Hk Hin]]].
        -- right. split; [done|by left].
        -- by left.
        -- right. split; [done|by right].
      * intros [[-> ->]|[Hk [[= -> ->]|Hin]]].
        -- right. by left.
        -- by left.
        -- right. right. by split.
Qed.

(** Two registries that agree, slot by slot, on keys and agent names. *)
Lemma registry_wf_same_names (ags ags' : list (string * BuildAgent)) :
  Forall2 (λ kv kv', kv.1 = kv'.1 ∧ agent_name kv.2 = agent_name kv'.2) ags ags' →
  registry_wf ags → registry_wf ags'.
Proof.
  intros Hsame [Hnd Hnames].
  assert (Hkeys : ags'.*1 = ags.*1).
  { induction Hsame as [|kv kv' l l' [Hk _] _ IH]; [done|].
    rewrite !fmap_cons, Hk. f_equal. apply IH.
    - rewrite fmap_cons in Hnd. by apply NoDup_cons in Hnd as [_ ?].
    - intros k a Hin. apply Hnames. by right. }
  split; [by rewrite Hkeys|].
  intros k a' Hin. apply list_elem_of_lookup in Hin as (j & Hj).
  destruct (Forall2_lookup_r _ _ _ _ _ Hsame Hj) as ([k0 a0] & Hj0 & Hk & Hn).
  simpl in *. subst k0. rewrite <- Hn. apply Hnames. by eapply list_elem_of_lookup_2.
Qed.

Lemma registry_wf_update_slot (i : nat) (f : BuildAgent → BuildAgent)
    (ags : list (string * BuildAgent)) :
  (∀ a, agent_name (f a) = agent_name a) →
  registry_wf ags → registry_wf (update_slot i f ags).
Proof.
  intros Hf. apply registry_wf_same_names. unfold update_slot.
  apply Forall2_alter_r; [by apply Forall_Forall2_diag, Forall_true|].
  intros [k a] [k' a'] _ _ [-> ->]. simpl. by rewrite Hf.
Qed.

Lemma registry_wf_map (f : string * BuildAgent → string * BuildAgent)
    (ags : list (string * BuildAgent)) :
  (∀ kv, (f kv).1 = kv.1 ∧ agent_name (f kv).2 = agent_name kv.2) →
  registry_wf ags → registry_wf (map f ags).
Proof.
  intros Hf. apply registry_wf_same_names.
  apply Forall2_fmap_r, Forall_Forall2_diag, Forall_forall.
  intros kv _. destruct (Hf kv) as [H1 H2]. by split.
Qed.

Lemma registry_wf_register (a : BuildAgent) (ags : list (string * BuildAgent)) :
  registry_wf ags → registry_wf (register a ags).
Proof.
  intros [Hnd Hnames]. unfold register. split.
  - rewrite dict_set_keys. case_decide as Hin; [done|].
    apply NoDup_app. split_and!; [done| |apply NoDup_singleton].
    intros k Hk ->%list_elem_of_singleton. by apply Hin.
  - intros k b [[-> ->]|[_ Hin]]%elem_of_dict_set; [done|by apply Hnames|done].
Qed.

Lemma registry_wf_probe (w : Outside) (host : string) (port : Z) (o : Orchestrator) :
  registry_wf (agents o) → registry_wf (agents (_probe_and_register_agent w host port o)).
Proof.
  intros Hwf. unfold _probe_and_register_agent.
  destruct (probe w host port) as [|raw]; [done|].
  destruct (startswith _ _); [|done].
  destruct (agent_data w _) as [[[name cores] memory]|]; [|done].
  simpl. by apply registry_wf_register.
Qed.

Lemma registry_wf_discover_lines (w : Outside) (lines : list string) (o : Orchestrator) :
  registry_wf (agents o) → registry_wf (agents (discover_lines w lines o)).
Proof.
  revert o. induction lines as [|line rest IH]; intros o Hwf; simpl; [done|].
  destruct (parse_host_line w line) as [|host port|]; [by apply IH| |done].
  by apply IH, registry_wf_probe.
Qed.

(** What one pass of the executor loop does to the registry. *)
Lemma executor_iteration_agents (ninja_build : string → string → RunResult)
    (t0 t1 : Z) (o : Orchestrator) :
  agents (_task_executor_iteration ninja_build t0 t1 o) = agents o ∨
  ∃ i k a, agents o !! i = Some (k, a) ∧ agent_status a = "idle" ∧
    agents (_task_executor_iteration ninja_build t0 t1 o)
    = update_slot i release (agents o).
Proof.
  destruct (executor_iteration_cases ninja_build t0 t1 o)
    as [[_ ->]|(t & rest & Hnext & _ & _ & _ & [[_ ->]|(i & k & a & Hi & Hidle & ->)])].
  - left. unfold _get_next_task. by destruct (list_find _ _) as [[n t]|].
  - by left.
  - right. exists i, k, a. split_and!; try done.
    unfold resolve. destruct (_execute_task_on_agent _ _ _ _ _) as [[] t']; simpl;
      apply release_after_reserve.
Qed.

(** X8. The registry stays a dict keyed by agent name (distinct keys, each
    the name of its agent) through every operation on it: a probe, a hosts
    file, the whole of discovery, a reservation, a pass of the executor
    loop, a heartbeat check and deployment. *)
Theorem registry_stays_keyed_by_name (o : Orchestrator) (w : Outside) (m : Machine)
    (host : string) (port master_port : Z) (mode : BuildMode)
    (file : option (list string)) (hosts_file : option (option (list string)))
    (task : BuildTask) (ninja_build : string → string → RunResult) (t0 t1 now : Z) :
  registry_wf (agents o) →
  registry_wf (agents (_probe_and_register_agent w host port o)) ∧
  registry_wf (agents (_discover_from_hosts_file w file o)) ∧
  registry_wf (agents (discover_agents w m master_port mode hosts_file o).2) ∧
  registry_wf (agents (_reserve_agent task o).2) ∧
  registry_wf (agents (_task_executor_iteration ninja_build t0 t1 o)) ∧
  registry_wf (agents (_agent_heartbeat_monitor_iteration now o)) ∧
  registry_wf (agents (deploy_build_agents mode o)).
Proof.
  intros Hwf. split_and!.
  - by apply registry_wf_probe.
  - destruct file; simpl; [by apply registry_wf_discover_lines|done].
  - unfold discover_agents. simpl.
    assert (Hlocal : registry_wf (agents (_register_local_agent w m master_port o)))
      by (by apply registry_wf_register).
    destruct mode, hosts_file as [[lines|]|]; simpl; try done;
      by apply registry_wf_discover_lines.
  - unfold _reserve_agent.
    destruct (sort_desc _ _) as [|[i a] rest]; simpl; [done|].
    by apply registry_wf_update_slot.
  - destruct (executor_iteration_agents ninja_build t0 t1 o)
      as [->|(i & k & a & _ & _ & ->)]; [done|].
    by apply registry_wf_update_slot.
  - simpl. apply registry_wf_map; [|done]. intros [k a]. simpl. split; [done|].
    unfold heartbeat_check. destruct (stale _ _ _); [|done]. by destruct (decide _).
  - destruct mode; simpl; [done|..];
      (apply registry_wf_map; [|done]); intros [k a]; simpl; by destruct (decide _).
Qed.

Lemma registry_stays_keyed_by_name_witness :
  registry_wf (agents sample_state) ∧
  registry_wf (agents (_task_executor_iteration passing_build 200 201 sample_state)).
Proof.
  assert (H : registry_wf (agents sample_state)).
  { split.
    - simpl. repeat (apply NoDup_cons; split; [set_solver|]). apply NoDup_nil_2.
    - intros k a Hin. simpl in Hin.
      repeat (apply elem_of_cons in Hin as [[= -> ->]|Hin]); try done.
      by apply elem_of_nil in Hin. }
  split; [exact H|].
  exact (proj1 (proj2 (proj2 (proj2 (proj2
    (registry_stays_keyed_by_name sample_state farm_network buildbox "10.0.0.7" 8374 8374
       SINGLE_NODE None None task_lib passing_build 200 201 116 H)))))).
Defined.

(** X9. Registering an agent under a name already in the registry
    replaces that agent where it stands, so the order and the number of the
    agents stay; under a new name the agent goes last. Agents of other
    names are untouched. *)
Theorem register_replaces_in_place (a : BuildAgent) (ags : list (string * BuildAgent)) :
  registry_wf ags →
  (agent_name a, a) ∈ register a ags ∧
  (∀ k b, k ≠ agent_name a → (k, b) ∈ register a ags ↔ (k, b) ∈ ags) ∧
  (register a ags).*1
    = (if decide (agent_name a ∈ ags.*1) then ags.*1 else ags.*1 ++ [agent_name a]) ∧
  length (register a ags)
    = (if decide (agent_name a ∈ ags.*1) then length ags else S (length ags)).
Proof.
  intros [Hnd _]. unfold register. split_and!.
  - apply elem_of_dict_set; [done|]. by left.
  - intros k b Hk. rewrite elem_of_dict_set by done. naive_solver.
  - apply dict_set_keys.
  - rewrite <- (length_fmap fst (dict_set _ _ _)), dict_set_keys.
    case_decide; rewrite ?length_app, length_fmap; simpl; lia.
Qed.

Lemma register_replaces_in_place_witness :
  registry_wf [("farm-1", remote_agent)] ∧
  (register (set_agent_status "busy" remote_agent) [("farm-1", remote_agent)]).*1
    = ["farm-1"].
Proof.
  assert (H : registry_wf [("farm-1", remote_agent)]).
  { split; [apply NoDup_singleton|].
    intros k a [= -> ->]%list_elem_of_singleton. reflexivity. }
  split; [exact H|].
  exact (proj1 (proj2 (proj2
    (register_replaces_in_place (set_agent_status "busy" remote_agent) _ H)))).
Defined.

(** X10. Reservation is exclusive: after an agent has been reserved, it is
    busy with the target of the task, and a further reservation, for any
    task, never returns it again and leaves it as it is. *)
Theorem reserve_agent_exclusive (task1 task2 : BuildTask) (o o1 : Orchestrator)
    (i : nat) (a : BuildAgent) :
  _reserve_agent task1 o = (Some (i, a), o1) →
  (∃ k, agents o1 !! i = Some (k, a)) ∧
  agent_status a = "busy" ∧ agent_current_task a = Some (task_target task1) ∧
  match _reserve_agent task2 o1 with
  | (Some (j, b), o2) => j ≠ i ∧ agents o2 !! i = agents o1 !! i
  | (None, o2) => o2 = o1
  end.
Proof.
  unfold _reserve_agent at 1.
  destruct (sort_desc _ _) as [|[i0 a0] rest] eqn:Hsort; [done|].
  intros [= <- <- <-].
  pose proof (best_idle_agent _ _ _ _ Hsort) as ((k & Hk) & _ & _).
  assert (Hi : agents (set_agents (update_slot i0 (reserve_for (task_target task1))
                                    (agents o)) o) !! i0
               = Some (k, reserve_for (task_target task1) a0)).
  { simpl. unfold update_slot. by rewrite list_lookup_alter_eq, Hk. }
  split; [by exists k|]. split; [done|]. split; [done|].
  unfold _reserve_agent. cbn [agents set_agents].
  destruct (sort_desc _ (idle_agents (update_slot _ _ _))) as [|[j b] rest2] eqn:Hsort2;
    [done|].
  pose proof (best_idle_agent _ _ _ _ Hsort2) as ((kj & Hkj) & Hidle & _).
  assert (Hne : j ≠ i0).
  { intros Heq. rewrite Heq in Hkj. simpl in Hi, Hkj. rewrite Hi in Hkj.
    injection Hkj as _ <-. discriminate Hidle. }
  split; [done|]. cbn [agents set_agents]. unfold update_slot at 1.
  by rewrite list_lookup_alter_ne.
Qed.

Lemma reserve_agent_exclusive_witness :
  _reserve_agent task_lib sample_state
    = (Some (1%nat, reserve_for "lib.o" local_agent),
       (_reserve_agent task_lib sample_state).2) ∧
  (_reserve_agent task_doc (_reserve_agent task_lib sample_state).2).1
    = Some (2%nat, reserve_for "doc" remote_agent).
Proof.
  split; [reflexivity|].
  pose proof (reserve_agent_exclusive task_lib task_doc sample_state _ _ _ eq_refl)
    as (_ & _ & _ & H).
  destruct (_reserve_agent task_doc _) as [[[j b]|] o2] eqn:E.
  - vm_compute in E. by injection E as <- <- <-.
  - vm_compute in E. discriminate E.
Defined.

(** ** More on discovery *)

(** X11. A hosts-file line whose second field is no integer ends
    discovery: the lines before it are processed, the line itself and every
    line after it are not, and nothing is undone. *)
Theorem bad_port_ends_discovery (w : Outside) (before after : list string)
    (line host p : string) (more : list string) (o : Orchestrator) :
  strip line ≠ "" → startswith "#" (strip line) = false →
  py_split (strip line) = host :: p :: more →
  py_int w p = None →
  _discover_from_hosts_file w (Some (before ++ line :: after)) o
  = _discover_from_hosts_file w (Some before) o.
Proof.
  intros Hne Hnc Hsplit Hint. simpl.
  assert (Hbad : parse_host_line w line = BadPort).
  { unfold parse_host_line. rewrite decide_False by done.
    by rewrite Hnc, Hsplit, Hint. }
  revert o. induction before as [|l before IH]; intros o; simpl.
  - by rewrite Hbad.
  - destruct (parse_host_line w l); [apply IH..|done].
Qed.

Lemma bad_port_ends_discovery_witness :
  py_int farm_network "http" = None ∧
  agents (_discover_from_hosts_file farm_network (Some broken_hosts) empty_state)
    = agents (_discover_from_hosts_file farm_network
                (Some ["10.0.0.7" ++ nl]%string) empty_state).
Proof.
  split; [reflexivity|]. apply (f_equal agents).
  apply (bad_port_ends_discovery farm_network ["10.0.0.7" ++ nl]%string
           ["10.0.0.7 8374" ++ nl]%string ("10.0.0.9 http" ++ nl)%string
           "10.0.0.9" "http" []); by vm_compute.
Defined.

Lemma register_keys_prefix (a : BuildAgent) (ags : list (string * BuildAgent)) :
  ags.*1 `prefix_of` (register a ags).*1.
Proof.
  unfold register. rewrite dict_set_keys. case_decide; [done|].
  by apply prefix_app_r.
Qed.

Lemma probe_keys_prefix (w : Outside) (host : string) (port : Z) (o : Orchestrator) :
  (agents o).*1 `prefix_of` (agents (_probe_and_register_agent w host port o)).*1 ∧
  build_tasks (_probe_and_register_agent w host port o) = build_tasks o ∧
  completed_tasks (_probe_and_register_agent w host port o) = completed_tasks o ∧
  build_graph (_probe_and_register_agent w host port o) = build_graph o.
Proof.
  unfold _probe_and_register_agent.
  destruct (probe w host port) as [|raw]; [done|].
  destruct (startswith _ _); [|done].
  destruct (agent_data w _) as [[[name cores] memory]|]; [|done].
  simpl. split; [apply register_keys_prefix|done].
Qed.

Lemma discover_lines_only_adds (w : Outside) (lines : list string) (o : Orchestrator) :
  (agents o).*1 `prefix_of` (agents (discover_lines w lines o)).*1 ∧
  build_tasks (discover_lines w lines o) = build_tasks o ∧
  completed_tasks (discover_lines w lines o) = completed_tasks o ∧
  build_graph (discover_lines w lines o) = build_graph o.
Proof.
  revert o. induction lines as [|line rest IH]; intros o; simpl; [done|].
  destruct (parse_host_line w line) as [|host port|]; [apply IH| |done].
  destruct (probe_keys_prefix w host port o) as (Hp & Ht & Hc & Hg).
  destruct (IH (_probe_and_register_agent w host port o)) as (Hp' & Ht' & Hc' & Hg').
  split_and!; [by etrans|congruence..].
Qed.

(** X12. Discovery from a hosts file only adds to the registry: the names
    registered before are still registered, in the same order and in front
    of any new name, and the task lists and the graph are not touched. *)
Theorem discovery_only_adds (w : Outside) (file : option (list string)) (o : Orchestrator) :
  (agents o).*1 `prefix_of` (agents (_discover_from_hosts_file w file o)).*1 ∧
  build_tasks (_discover_from_hosts_file w file o) = build_tasks o ∧
  completed_tasks (_discover_from_hosts_file w file o) = completed_tasks o ∧
  build_graph (_discover_from_hosts_file w file o) = build_graph o.
Proof.
  destruct file as [lines|]; simpl; [apply discover_lines_only_adds|done].
Qed.

(** X13. [discover_agents] always registers the local machine and returns
    the number of registered agents, which is never zero; in single-node
    and cloud mode, and without a hosts file, nothing else is registered
    and no host is probed, whatever the hosts file holds. *)
Theorem discover_agents_registers_local (w : Outside) (m : Machine) (master_port : Z)
    (mode : BuildMode) (hosts_file : option (option (list string))) (o : Orchestrator) :
  let r := discover_agents w m master_port mode hosts_file o in
  r.1 = length (agents r.2) ∧ (0 < r.1)%nat ∧
  (hostname m ++ "-local")%string ∈ (agents r.2).*1 ∧
  (mode = SINGLE_NODE ∨ mode = CLOUD ∨ hosts_file = None →
     r.2 = _register_local_agent w m master_port o) ∧
  (agents o).*1 `prefix_of` (agents r.2).*1.
Proof.
  set (o1 := _register_local_agent w m master_port o).
  assert (Hkey : (hostname m ++ "-local")%string ∈ (agents o1).*1).
  { unfold o1, _register_local_agent, register. simpl.
    rewrite dict_set_keys. simpl. case_decide; [done|]. set_solver. }
  assert (Hpre : (agents o).*1 `prefix_of` (agents o1).*1)
    by apply register_keys_prefix.
  assert (Hall : ∀ o2, (agents o1).*1 `prefix_of` (agents o2).*1 →
            length (agents o2) = length (agents o2) ∧ (0 < length (agents o2))%nat ∧
            (hostname m ++ "-local")%string ∈ (agents o2).*1 ∧
            (agents o).*1 `prefix_of` (agents o2).*1).
  { intros o2 Hp. split; [done|].
    assert (Hin : (hostname m ++ "-local")%string ∈ (agents o2).*1).
    { destruct Hp as [l ->]. set_solver. }
    split_and!; [|done|by etrans].
    rewrite <- (length_fmap fst). destruct ((agents o2).*1); [|simpl; lia].
    by apply elem_of_nil in Hin. }
  unfold discover_agents. fold o1. cbv zeta. simpl.
  destruct mode, hosts_file as [file|]; simpl;
    try (destruct (Hall o1) as (? & ? & ? & ?); [done|];
         split_and!; try done; intros [?|[?|?]]; done).
  all: assert (Hp : (agents o1).*1 `prefix_of`
                      (agents (_discover_from_hosts_file w file o1)).*1)
    by (destruct file; simpl; [apply discover_lines_only_adds|done]);
    destruct (Hall _ Hp) as (? & ? & ? & ?);
    split_and!; try done; intros [?|[?|?]]; done.
Qed.

(** ** Deployment *)

Lemma no_remote_idle_update_release (i : nat) (ags : list (string * BuildAgent)) :
  (∃ k a, ags !! i = Some (k, a) ∧ agent_status a = "idle") →
  no_remote_idle ags → no_remote_idle (update_slot i release ags).
Proof.
  intros (k & a & Hi & Ha) Hinv k' a' Hin Hidle.
  apply list_elem_of_lookup in Hin as (j & Hj). unfold update_slot in Hj.
  destruct (decide (i = j)) as [<-|Hne].
  - rewrite list_lookup_alter_eq, Hi in Hj. injection Hj as <- <-. simpl.
    apply (Hinv k a); [by eapply list_elem_of_lookup_2|done].
  - rewrite list_lookup_alter_ne in Hj by done.
    apply (Hinv k' a'); [by eapply list_elem_of_lookup_2|done].
Qed.

Lemma no_remote_idle_iteration (ninja_build : string → string → RunResult)
    (t0 t1 : Z) (o : Orchestrator) :
  no_remote_idle (agents o) →
  no_remote_idle (agents (_task_executor_iteration ninja_build t0 t1 o)).
Proof.
  intros Hinv.
  destruct (executor_iteration_agents ninja_build t0 t1 o)
    as [->|(i & k & a & Hi & Ha & ->)]; [done|].
  apply no_remote_idle_update_release; [by exists k, a|done].
Qed.

Lemma no_remote_idle_run (ninja_build : string → string → RunResult)
    (clocks : list (Z * Z)) (o : Orchestrator) :
  no_remote_idle (agents o) →
  no_remote_idle (agents (executor_run ninja_build clocks o)).
Proof.
  revert o. induction clocks as [|[t0 t1] clocks IH]; intros o Hinv; simpl; [done|].
  by apply IH, no_remote_idle_iteration.
Qed.

Lemma no_remote_idle_heartbeat (now : Z) (o : Orchestrator) :
  no_remote_idle (agents o) →
  no_remote_idle (agents (_agent_heartbeat_monitor_iteration now o)).
Proof.
  intros Hinv k a' Hin Hidle. simpl in Hin.
  apply list_elem_of_fmap in Hin as ([k0 a] & [= -> ->] & Hin). simpl in *.
  unfold heartbeat_check in *. destruct (stale _ _ _); [|by apply (Hinv k0 a)].
  destruct (decide (agent_host a = "localhost")); [done|]. discriminate Hidle.
Qed.

(** X14. Once the agents are deployed in distributed, recursive or cloud
    mode, no agent on another host is ever reserved: deployment leaves every
    such agent with status active, passes of the executor loop and heartbeat
    checks never make one idle, and reservation only takes idle agents. *)
Theorem remote_agents_never_reserved (mode : BuildMode) (o : Orchestrator)
    (ninja_build : string → string → RunResult) (clocks : list (Z * Z)) (now : Z)
    (task : BuildTask) :
  mode ≠ SINGLE_NODE →
  (∀ k a, (k, a) ∈ agents (deploy_build_agents mode o) →
     agent_host a ≠ "localhost" → agent_status a = "active") ∧
  match (_reserve_agent task
           (_agent_heartbeat_monitor_iteration now
              (executor_run ninja_build clocks (deploy_build_agents mode o)))).1 with
  | Some (i, a) => agent_host a = "localhost"
  | None => True
  end.
Proof.
  intros Hmode.
  assert (Hactive : ∀ k a, (k, a) ∈ agents (deploy_build_agents mode o) →
            agent_host a ≠ "localhost" → agent_status a = "active").
  { intros k a' Hin Hhost. destruct mode; [done|..]; simpl in Hin;
      apply list_elem_of_fmap in Hin as ([k0 a] & Heq & Hin); simpl in Heq;
      (destruct (decide (agent_host a = "localhost"));
       [by injection Heq as -> ->|by injection Heq as -> ->]). }
  split; [done|].
  assert (Hinv : no_remote_idle (agents (deploy_build_agents mode o))).
  { intros k a Hin Hidle. destruct (decide (agent_host a = "localhost")); [done|].
    rewrite (Hactive k a Hin) in Hidle by done. discriminate Hidle. }
  apply (no_remote_idle_run ninja_build clocks) in Hinv.
  apply (no_remote_idle_heartbeat now) in Hinv.
  set (o' := _agent_heartbeat_monitor_iteration now _) in *.
  unfold _reserve_agent.
  destruct (sort_desc _ _) as [|[i a] rest] eqn:Hsort; simpl; [done|].
  apply best_idle_agent in Hsort as ((k & Hk) & Hidle & _).
  apply (Hinv k a); [by eapply list_elem_of_lookup_2|done].
Qed.

Lemma remote_agents_never_reserved_witness :
  DISTRIBUTED ≠ SINGLE_NODE ∧
  (_reserve_agent task_lib
     (_agent_heartbeat_monitor_iteration 101
        (executor_run passing_build [] (deploy_build_agents DISTRIBUTED sample_state)))).1
  = Some (1%nat, reserve_for "lib.o" local_agent).
Proof.
  split; [discriminate|].
  pose proof (proj2 (remote_agents_never_reserved DISTRIBUTED sample_state passing_build
                       [] 101 task_lib ltac:(discriminate))) as H.
  destruct (_reserve_agent task_lib _).1 as [[i a]|] eqn:E.
  - vm_compute in E. by injection E as <- <-.
  - vm_compute in E. discriminate E.
Defined.

(** ** More on the heartbeat monitor *)

(** X15. A heartbeat check at a given clock reading is idempotent, never
    makes an agent idle, never brings an unavailable agent back, and writes
    nothing but status and last_seen: keys, names, hosts, ports, cores,
    current tasks (even of an agent it marks unavailable), the task lists
    and the graph stay. *)
Theorem heartbeat_check_is_idempotent (now : Z) (o : Orchestrator) :
  _agent_heartbeat_monitor_iteration now (_agent_heartbeat_monitor_iteration now o)
    = _agent_heartbeat_monitor_iteration now o ∧
  Forall2 (λ kv kv' : string * BuildAgent,
             kv'.1 = kv.1 ∧
             agent_name kv'.2 = agent_name kv.2 ∧ agent_host kv'.2 = agent_host kv.2 ∧
             agent_port kv'.2 = agent_port kv.2 ∧ agent_cores kv'.2 = agent_cores kv.2 ∧
             agent_current_task kv'.2 = agent_current_task kv.2 ∧
             agent_available_memory kv'.2 = agent_available_memory kv.2 ∧
             (agent_status kv'.2 = agent_status kv.2 ∨ agent_status kv'.2 = "unavailable"))
          (agents o) (agents (_agent_heartbeat_monitor_iteration now o)) ∧
  build_tasks (_agent_heartbeat_monitor_iteration now o) = build_tasks o ∧
  completed_tasks (_agent_heartbeat_monitor_iteration now o) = completed_tasks o ∧
  build_graph (_agent_heartbeat_monitor_iteration now o) = build_graph o.
Proof.
  split_and!; try done.
  - unfold _agent_heartbeat_monitor_iteration, set_agents. simpl. f_equal.
    rewrite <- list_fmap_compose. apply list_fmap_ext. intros j [k a] _. simpl. f_equal.
    unfold heartbeat_check, stale.
    destruct (Z.ltb_spec (heartbeat_interval o * 3) (now - agent_last_seen a)) as [Hs|Hs];
      [|by rewrite (proj2 (Z.ltb_ge _ _) Hs)].
    destruct (decide (agent_host a = "localhost")) as [Hl|Hl]; simpl.
    + rewrite decide_True by done. by destruct (_ <? _).
    + rewrite decide_False by done. rewrite (proj2 (Z.ltb_lt _ _) Hs). done.
  - simpl. apply Forall2_fmap_r, Forall_Forall2_diag, Forall_forall.
    intros [k a] _. simpl. unfold heartbeat_check.
    destruct (stale _ _ _); [|split_and!; try done; by left].
    destruct (decide _); simpl; split_and!; try done; first [by left|by right].
Qed.

(** ** More on graph ingestion *)

Lemma graph_of_snoc (tasks : list BuildTask) (t : BuildTask) :
  graph_of (tasks ++ [t]) = <[task_target t := task_dependencies t]> (graph_of tasks).
Proof. unfold graph_of. by rewrite foldl_app. Qed.

Lemma query_targets_consistent (tool : BuildTool) (fs : gmap string string)
    (build_dir : string) (targets : list string) (o : Orchestrator) :
  build_graph o = graph_of (build_tasks o) →
  let o' := (query_targets tool fs build_dir targets o).2 in
  build_graph o' = graph_of (build_tasks o') ∧
  build_tasks o `prefix_of` build_tasks o' ∧
  (∀ t, t ∈ build_tasks o' → t ∈ build_tasks o ∨
     (∃ deps, t = new_task (task_target t) build_dir deps) ∧ task_target t ∈ targets) ∧
  completed_tasks o' = completed_tasks o ∧ agents o' = agents o.
Proof.
  revert o. induction targets as [|target rest IH]; intros o Hg; simpl.
  { split_and!; try done. intros t Ht. by left. }
  destruct (query tool fs build_dir target) as [output| |]; simpl.
  - set (o1 := set_build_graph _ _).
    destruct (IH o1) as (Hg' & Hp & Hnew & Hc & Ha).
    { unfold o1. simpl. by rewrite graph_of_snoc, Hg. }
    split_and!; try done.
    + etrans; [|exact Hp]. unfold o1. simpl. by apply prefix_app_r.
    + intros t Ht. destruct (Hnew t Ht) as [Hin|[Hd Hin]].
      * unfold o1 in Hin. simpl in Hin.
        apply elem_of_app in Hin as [Hin| ->%list_elem_of_singleton]; [by left|].
        right. split; [by eexists|by left].
      * right. split; [done|by right].
  - destruct (IH o Hg) as (Hg' & Hp & Hnew & Hc & Ha). split_and!; try done.
    intros t Ht. destruct (Hnew t Ht) as [Hin|[Hd Hin]]; [by left|].
    right. split; [done|by right].
  - split_and!; try done. intros t Ht. by left.
Qed.

(** X16. Ingestion keeps the build graph in step with the task list: if
    the graph is the one recorded for the pending tasks before
    [parse_build_tasks], it is so afterwards, whether the call succeeds,
    fails part-way or lets an [OSError] escape. The tasks already pending stay in front, every task
    added is fresh (priority 0, status pending, no agent, no times, the
    build directory as its directory), and the completed list and the
    registry are not touched. *)
Theorem parse_build_tasks_keeps_graph_in_step (files : FileSystem) (tool : BuildTool)
    (build_dir : string) (fs : gmap string string) (o : Orchestrator) :
  build_graph o = graph_of (build_tasks o) →
  let o' := (parse_build_tasks files tool build_dir fs o).2 in
  build_graph o' = graph_of (build_tasks o') ∧
  build_tasks o `prefix_of` build_tasks o' ∧
  (∀ t, t ∈ build_tasks o' → t ∈ build_tasks o ∨
     ∃ deps, t = mkTask (task_target t) build_dir 0 deps None "pending" None None) ∧
  completed_tasks o' = completed_tasks o ∧ agents o' = agents o.
Proof.
  intros Hg. unfold parse_build_tasks. cbv zeta.
  assert (Hsame : build_graph o = graph_of (build_tasks o) ∧
            build_tasks o `prefix_of` build_tasks o ∧
            (∀ t, t ∈ build_tasks o → t ∈ build_tasks o ∨
               ∃ deps, t = mkTask (task_target t) build_dir 0 deps None "pending" None None) ∧
            completed_tasks o = completed_tasks o ∧ agents o = agents o).
  { split_and!; try done. intros t Ht. by left. }
  match goal with |- context [match ?p with Ready _ => _ | OSError _ => _ end] =>
    destruct p as [fs1|fs1] end; [|exact Hsame].
  destruct (targets_all tool fs1 build_dir) as [output| |]; simpl; [|exact Hsame..].
  pose proof (query_targets_consistent tool fs1 build_dir (parse_targets output) o Hg) as H.
  destruct (query_targets _ _ _ _ _) as [ok o']. simpl in *.
  destruct H as (Hg' & Hp & Hnew & Hc & Ha). split_and!; try done.
  intros t Ht. destruct (Hnew t Ht) as [Hin|[Hd _]]; [by left|by right].
Qed.

Lemma parse_build_tasks_keeps_graph_in_step_witness :
  build_graph empty_state = graph_of (build_tasks empty_state) ∧
  build_graph (parse_build_tasks plain_files placeholder_tool "build" ∅ empty_state).2
    = graph_of
        (build_tasks (parse_build_tasks plain_files placeholder_tool "build" ∅ empty_state).2).
Proof.
  split; [reflexivity|].
  exact (proj1 (parse_build_tasks_keeps_graph_in_step plain_files placeholder_tool "build" ∅
                  empty_state eq_refl)).
Defined.

(** ** More on the priority plan *)

Lemma assign_priorities_spec (graph : gmap string (list string)) (l : list BuildTask) :
  Forall2 (λ t t', t' = set_task_priority (task_priority t') t) l
          (assign_priorities graph l).
Proof.
  unfold assign_priorities. apply Forall2_same_length_lookup. split.
  - by rewrite length_imap.
  - intros i t t' Hi Hi'. rewrite list_lookup_imap, Hi in Hi'. by injection Hi' as <-.
Qed.

Lemma assign_priorities_plan (graph : gmap string (list string)) (l : list BuildTask) :
  task_plan <$> assign_priorities graph l = task_plan <$> l.
Proof.
  pose proof (assign_priorities_spec graph l) as H.
  induction H as [|t t' l l' Ht _ IH]; [done|].
  rewrite !fmap_cons, IH. f_equal. by rewrite Ht.
Qed.

(** X17. [optimize_build_plan] raises no [KeyError]; it raises a
    [RecursionError], leaving the orchestrator as it was, only when the
    recursion limit is at most the number of pending tasks plus the frames
    of a warning, and otherwise returns a plan. The new pending list of a
    plan is in descending order of priority and holds exactly one task for
    each pending target; each of its tasks is a task that was pending, with
    nothing but the priority changed. So with distinct targets no task is
    lost or added, while of several pending tasks with one target a single
    one is kept. The completed list, the registry and the graph stay. *)
Theorem optimize_build_plan_keeps_tasks (warning_frames recursion_limit : nat)
    (o : Orchestrator) :
  match optimize_build_plan warning_frames recursion_limit o with
  | Ok o' =>
      StronglySorted (λ a b, task_priority b ≤ task_priority a) (build_tasks o') ∧
      NoDup (task_target <$> build_tasks o') ∧
      (∀ x, x ∈ task_target <$> build_tasks o' ↔ x ∈ task_target <$> build_tasks o) ∧
      (∀ t', t' ∈ build_tasks o' →
         ∃ t, t ∈ build_tasks o ∧ t' = set_task_priority (task_priority t') t) ∧
      (NoDup (task_target <$> build_tasks o) →
         task_plan <$> build_tasks o' ≡ₚ task_plan <$> build_tasks o) ∧
      completed_tasks o' = completed_tasks o ∧ agents o' = agents o ∧
      build_graph o' = build_graph o
  | RecursionError => (recursion_limit ≤ length (build_tasks o) + warning_frames)%nat
  | KeyError => False
  end ∧
  ((length (build_tasks o) + warning_frames < recursion_limit)%nat →
     ∃ o', optimize_build_plan warning_frames recursion_limit o = Ok o').
Proof.
  split; cycle 1.
  { intros Hroom. destruct (topological_sort_returns _ _ _ Hroom) as (r & Hr).
    unfold optimize_build_plan. rewrite Hr. simpl. by eexists. }
  pose proof (topological_sort_raises warning_frames recursion_limit o) as Hraises.
  unfold optimize_build_plan.
  destruct (_topological_sort warning_frames recursion_limit o) as [r| |] eqn:Hr; simpl;
    [|done..].
  destruct (topological_sort_result _ _ _ _ Hr) as (Hnd & Hiff & Hres).
  set (planned := assign_priorities (build_graph o) r).
  assert (Hperm : sort_desc task_priority planned ≡ₚ planned) by apply sort_desc_perm.
  assert (Htargets : task_target <$> planned = task_target <$> r).
  { pose proof (assign_priorities_plan (build_graph o) r) as Hp.
    apply (f_equal (fmap (λ p : string * string * list string, p.1.1))) in Hp.
    by rewrite <- !list_fmap_compose in Hp. }
  split_and!; try done.
  - apply sort_desc_sorted.
  - by rewrite Hperm, Htargets.
  - intros x. by rewrite Hperm, Htargets.
  - intros t' Ht'. rewrite Hperm in Ht'.
    apply list_elem_of_lookup in Ht' as (i & Hi).
    destruct (Forall2_lookup_r _ _ _ _ _ (assign_priorities_spec (build_graph o) r) Hi)
      as (t & Ht & Heq).
    exists t. split; [|done].
    apply list_elem_of_lookup_2, Hres, target_to_task_keys in Ht. by destruct Ht.
  - intros Hdistinct. rewrite Hperm. unfold planned. rewrite assign_priorities_plan.
    apply fmap_Permutation, NoDup_Permutation.
    + by eapply NoDup_fmap_1.
    + by eapply NoDup_fmap_1.
    + intros t. split.
      * intros Ht. by apply Hres, target_to_task_keys in Ht as [Ht _].
      * intros Ht.
        assert (Hin : task_target t ∈ task_target <$> r)
          by (apply Hiff; by apply list_elem_of_fmap_2).
        apply list_elem_of_fmap in Hin as (u & Htu & Hu).
        pose proof (Hres u Hu) as Hlook. rewrite <- Htu in Hlook.
        rewrite (target_to_task_unique _ t Hdistinct Ht) in Hlook. by injection Hlook as ->.
Qed.

Lemma optimize_build_plan_keeps_tasks_witness :
  (length (build_tasks plan_state) + 10 < 1000)%nat ∧
  NoDup (task_target <$> build_tasks plan_state) ∧
  ∃ o', optimize_build_plan 10 1000 plan_state = Ok o' ∧
    task_plan <$> build_tasks o' ≡ₚ task_plan <$> build_tasks plan_state.
Proof.
  assert (Hroom : (length (build_tasks plan_state) + 10 < 1000)%nat) by (simpl; lia).
  assert (Hnd : NoDup (task_target <$> build_tasks plan_state)).
  { simpl. repeat (apply NoDup_cons; split; [set_solver|]). apply NoDup_nil_2. }
  split; [exact Hroom|]. split; [exact Hnd|].
  pose proof (optimize_build_plan_keeps_tasks 10 1000 plan_state) as (Hcases & Hreturns).
  destruct (Hreturns Hroom) as (o' & Ho'). rewrite Ho' in Hcases.
  destruct Hcases as (_ & _ & _ & _ & Hperm & _).
  exists o'. split; [exact Ho'|exact (Hperm Hnd)].
Defined.

Lemma optimize_build_plan_formula_witness :
  build_graph plan_state = graph_of (build_tasks plan_state) ∧
  ∃ o', optimize_build_plan 10 1000 plan_state = Ok o' ∧
    set_task_priority 20 task_lib ∈ build_tasks o'.
Proof.
  split; [reflexivity|].
  assert (Hnd : NoDup (task_target <$> build_tasks plan_state)).
  { simpl. repeat (apply NoDup_cons; split; [set_solver|]). apply NoDup_nil_2. }
  assert (Hself : ∀ t, t ∈ build_tasks plan_state → task_target t ∉ task_dependencies t).
  { intros t Ht. simpl in Ht.
    repeat (apply elem_of_cons in Ht as [->|Ht]); [set_solver..|by apply elem_of_nil in Ht]. }
  pose proof (optimize_build_plan_formula 10 1000 plan_state eq_refl Hnd Hself) as Hplan.
  destruct (optimize_build_plan 10 1000 plan_state) as [o'| |] eqn:Ho';
    [|exfalso; exact Hplan|exfalso; simpl in Hplan; lia].
  exists o'. split; [reflexivity|].
  destruct Hplan as (r & Hr & Hrank).
  assert (Hr' : _topological_sort 10 1000 plan_state = Ok [task_lib; task_app; task_test])
    by (by vm_compute).
  rewrite Hr' in Hr. injection Hr as <-.
  exact (Hrank 0%nat task_lib eq_refl).
Defined.

(** ** Retries *)

Lemma execute_failing_build (ninja_build : string → string → RunResult) (t0 t1 : Z)
    (task : BuildTask) (agent : BuildAgent) :
  (∀ dir target, ninja_build dir target ≠ Exited 0) →
  agent_host agent = "localhost" →
  (_execute_task_on_agent ninja_build t0 t1 task agent).1 = false.
Proof.
  intros Hfail Hlocal. unfold _execute_task_on_agent. simpl.
  rewrite decide_True by done.
  destruct (ninja_build _ _) as [rc|] eqn:E; [|done]. simpl.
  apply bool_decide_eq_false. intros ->. by apply (Hfail _ _ E).
Qed.

(** X18. Retry is unbounded. With a build command that never exits with
    status 0 and no idle agent on another host, no number of passes of the
    executor loop completes a task or drops one: the completed list is
    unchanged and the pending list keeps its length. *)
Theorem failing_build_retries_for_ever (ninja_build : string → string → RunResult)
    (clocks : list (Z * Z)) (o : Orchestrator) :
  (∀ dir target, ninja_build dir target ≠ Exited 0) →
  no_remote_idle (agents o) →
  completed_tasks (executor_run ninja_build clocks o) = completed_tasks o ∧
  length (build_tasks (executor_run ninja_build clocks o)) = length (build_tasks o).
Proof.
  intros Hfail. revert o.
  induction clocks as [|[t0 t1] clocks IH]; intros o Hinv; simpl; [done|].
  destruct (IH (_task_executor_iteration ninja_build t0 t1 o)) as [-> ->];
    [by apply no_remote_idle_iteration|].
  destruct (executor_iteration_cases ninja_build t0 t1 o)
    as [[Hnone ->]|(t & rest & Hnext & Hperm & _ & _ &
                    [[_ ->]|(i & k & a & Hi & Ha & ->)])].
  - unfold _get_next_task in Hnone |- *.
    destruct (list_find _ _) as [[n t]|]; simpl in *; [done|].
    split; [done|]. by rewrite sort_desc_perm.
  - simpl. split; [done|]. rewrite Hperm, length_app. simpl. lia.
  - rewrite execute_failing_build; [|done|].
    + unfold resolve. simpl. split; [done|]. rewrite Hperm, length_app. simpl. lia.
    + simpl. apply (Hinv k a); [by eapply list_elem_of_lookup_2|done].
Qed.

Lemma failing_build_retries_for_ever_witness :
  no_remote_idle (agents lone_state) ∧
  completed_tasks (executor_run failing_build [(200, 201); (202, 203); (204, 205)] lone_state)
    = [].
Proof.
  assert (H : no_remote_idle (agents lone_state)).
  { intros k a [= -> ->]%list_elem_of_singleton _. reflexivity. }
  split; [exact H|].
  exact (proj1 (failing_build_retries_for_ever failing_build _ lone_state
                  ltac:(discriminate) H)).
Defined.

(** ** Build summary *)

Lemma summary_step_inv (l : list BuildTask) :
  let '(total, slowest, slowest_d) := foldl summary_step (0, None, 0) l in
  0 ≤ slowest_d ∧
  (∀ t, t ∈ l → timed t = true → duration t ≤ slowest_d) ∧
  match slowest with
  | Some t => t ∈ l ∧ timed t = true ∧ duration t = slowest_d ∧ 0 < slowest_d
  | None => slowest_d = 0
  end.
Proof.
  induction l as [|x l IH] using rev_ind; simpl.
  { split; [done|]. split; [|done]. intros t Ht. by apply elem_of_nil in Ht. }
  rewrite foldl_app. simpl.
  destruct (foldl summary_step (0, None, 0) l) as [[total slowest] sd].
  destruct IH as (Hpos & Hmax & Hslow). unfold summary_step.
  destruct (timed x) eqn:Hx.
  - destruct (Z.ltb_spec sd (duration x)) as [Hlt|Hge].
    + split; [lia|]. split.
      * intros t [Ht| ->%list_elem_of_singleton]%elem_of_app Htimed; [|lia].
        specialize (Hmax t Ht Htimed). lia.
      * split_and!; [set_solver|done|done|lia].
    + split; [done|]. split.
      * intros t [Ht| ->%list_elem_of_singleton]%elem_of_app Htimed; [by apply Hmax|done].
      * destruct slowest as [t|]; [|done].
        destruct Hslow as (Ht & ? & ? & ?). split_and!; try done. set_solver.
  - split; [done|]. split.
    + intros t [Ht| ->%list_elem_of_singleton]%elem_of_app Htimed; [by apply Hmax|].
      by rewrite Hx in Htimed.
    + destruct slowest as [t|]; [|done].
      destruct Hslow as (Ht & ? & ? & ?). split_and!; try done. set_solver.
Qed.

Lemma agent_times_inv (l : list BuildTask) :
  NoDup (foldl agent_time_step [] l).*1 ∧
  ∀ name, name ∈ (foldl agent_time_step [] l).*1 ↔
    ∃ t, t ∈ l ∧ timed t = true ∧ task_assigned_agent t = Some name.
Proof.
  induction l as [|x l IH] using rev_ind; simpl.
  { split; [constructor|]. intros name. split; [by intros ?%elem_of_nil|].
    intros (t & Ht & _). by apply elem_of_nil in Ht. }
  rewrite foldl_app. simpl. destruct IH as [Hnd Hiff].
  set (times := foldl agent_time_step [] l) in *.
  assert (Hkeep : ∀ name, (∃ t, t ∈ l ∧ timed t = true ∧ task_assigned_agent t = Some name) →
                          ∃ t, t ∈ l ++ [x] ∧ timed t = true ∧ task_assigned_agent t = Some name).
  { intros name (t & Ht & ?). exists t. split; [set_solver|done]. }
  unfold agent_time_step.
  destruct (task_assigned_agent x) as [agent|] eqn:Hagent;
    [destruct (timed x) eqn:Hx|].
  - rewrite dict_set_keys. split.
    + case_decide as Hin; [done|]. apply NoDup_app. split_and!; [done| |apply NoDup_singleton].
      intros k Hk ->%list_elem_of_singleton. by apply Hin.
    + intros name. split.
      * intros Hname.
        assert (Hcase : name ∈ times.*1 ∨ name = agent).
        { case_decide; [by left|]. apply elem_of_app in Hname as [?|?%list_elem_of_singleton];
            [by left|by right]. }
        destruct Hcase as [Hin| ->]; [by apply Hkeep, Hiff|].
        exists x. split; [set_solver|done].
      * intros (t & [Ht| ->%list_elem_of_singleton]%elem_of_app & Htimed & Hname).
        -- assert (Hin : name ∈ times.*1) by (apply Hiff; by exists t).
           case_decide; [done|]. set_solver.
        -- rewrite Hagent in Hname. injection Hname as ->.
           case_decide; [done|]. set_solver.
  - split; [done|]. intros name. rewrite Hiff. split; [apply Hkeep|].
    intros (t & [Ht| ->%list_elem_of_singleton]%elem_of_app & Htimed & Hname);
      [by exists t|]. by rewrite Hx in Htimed.
  - split; [done|]. intros name. rewrite Hiff. split; [apply Hkeep|].
    intros (t & [Ht| ->%list_elem_of_singleton]%elem_of_app & Htimed & Hname);
      [by exists t|]. by rewrite Hagent in Hname.
Qed.

(** X19. The build summary reports nothing exactly when no task is
    completed. Otherwise the slowest duration is at least the duration of
    every completed task that has both time stamps, and never negative; the
    slowest task, when one is named, is a completed task of exactly that
    duration, which is positive; no task is named when no duration is
    positive. The per-agent times have one entry for each agent that ran a
    timed completed task, and no other. *)
Theorem report_build_summary_spec (o : Orchestrator) :
  match _report_build_summary o with
  | None => completed_tasks o = []
  | Some s =>
      completed_tasks o ≠ [] ∧
      summary_tasks s = length (completed_tasks o) ∧
      0 ≤ slowest_duration s ∧
      (∀ t, t ∈ completed_tasks o → timed t = true → duration t ≤ slowest_duration s) ∧
      match slowest_task s with
      | Some t => t ∈ completed_tasks o ∧ timed t = true ∧
                  duration t = slowest_duration s ∧ 0 < slowest_duration s
      | None => slowest_duration s = 0
      end ∧
      NoDup (agent_times s).*1 ∧
      ∀ name, name ∈ (agent_times s).*1 ↔
        ∃ t, t ∈ completed_tasks o ∧ timed t = true ∧ task_assigned_agent t = Some name
  end.
Proof.
  unfold _report_build_summary.
  pose proof (summary_step_inv (completed_tasks o)) as H1.
  pose proof (agent_times_inv (completed_tasks o)) as [H2 H3].
  destruct (completed_tasks o) as [|c l] eqn:Hc; [done|].
  destruct (foldl summary_step (0, None, 0) (c :: l)) as [[total slowest] sd].
  destruct H1 as (Hpos & Hmax & Hslow). simpl. by split_and!.
Qed.
